(** * Spelling Roots Game: the etymology resolution pipeline

    A shallow embedding of [spelling_roots_game.py] and the properties of
    its lookup / fallback procedure, its root matcher, its section
    extractor and its CSV persistence.

    Text.  A Python [str] is modelled as a [string]; the character with
    number [n] stands for the code point [n], so the model covers text
    whose code points lie below 256.  The tables for [str.lower],
    [str.isspace] and the regular-expression class [\w] below are the
    ones CPython uses on that range. *)

From Stdlib Require Import NArith Ascii String Lia.
From stdpp Require Import base option list sorting strings gmap.

Local Open Scope N_scope.

(** ** Characters *)

Definition code (c : ascii) : N := N_of_ascii c.

Definition in_range (lo hi : N) (c : ascii) : bool :=
  (lo <=? code c) && (code c <=? hi).

Definition is_ascii_upper (c : ascii) : bool := in_range 65 90 c.
Definition is_ascii_lower (c : ascii) : bool := in_range 97 122 c.
Definition is_ascii_letter (c : ascii) : bool :=
  is_ascii_upper c || is_ascii_lower c.

(** [str.lower] on one code point: A-Z, and the upper-case letters of the
    range 0xC0-0xDE (0xD7, the multiplication sign, has no case). *)
Definition char_lower (c : ascii) : ascii :=
  if is_ascii_upper c || (in_range 192 222 c && negb (code c =? 215))
  then ascii_of_N (code c + 32)
  else c.

(** [str.upper] on one code point, for the letters whose upper case stays
    below 256 (that of 0xB5, 0xDF and 0xFF does not). *)
Definition char_upper (c : ascii) : ascii :=
  if is_ascii_lower c || (in_range 224 254 c && negb (code c =? 247))
  then ascii_of_N (code c - 32)
  else c.

(** [str.isspace]. *)
Definition isspace (c : ascii) : bool :=
  in_range 9 13 c || in_range 28 32 c || (code c =? 133) || (code c =? 160).

(** The class [\w] of [re] on [str] patterns: [str.isalnum] or underscore. *)
Definition is_word_char (c : ascii) : bool :=
  in_range 48 57 c || is_ascii_letter c || (code c =? 95)
  || (code c =? 170) || in_range 178 179 c || (code c =? 181)
  || in_range 185 186 c || in_range 188 190 c
  || (in_range 192 255 c && negb (code c =? 215) && negb (code c =? 247)).

Local Close Scope N_scope.

(** ** Strings *)

Fixpoint smap (f : ascii → ascii) (s : string) : string :=
  match s with
  | EmptyString => EmptyString
  | String c r => String (f c) (smap f r)
  end.

Fixpoint sfilter (f : ascii → bool) (s : string) : string :=
  match s with
  | EmptyString => EmptyString
  | String c r => if f c then String c (sfilter f r) else sfilter f r
  end.

Fixpoint sforall (f : ascii → bool) (s : string) : bool :=
  match s with
  | EmptyString => true
  | String c r => f c && sforall f r
  end.

(** [s.lower()] *)
Definition lower (s : string) : string := smap char_lower s.

(** [s.capitalize()]: first character upper-cased, the rest lower-cased. *)
Definition capitalize (s : string) : string :=
  match s with
  | EmptyString => EmptyString
  | String c r => String (char_upper c) (lower r)
  end.

Fixpoint lstrip (s : string) : string :=
  match s with
  | EmptyString => EmptyString
  | String c r => if isspace c then lstrip r else s
  end.

Fixpoint rstrip (s : string) : string :=
  match s with
  | EmptyString => EmptyString
  | String c r =>
      match rstrip r with
      | EmptyString => if isspace c then EmptyString else String c EmptyString
      | r' => String c r'
      end
  end.

(** [s.strip()] *)
Definition strip (s : string) : string := rstrip (lstrip s).

(** Python truthiness of a [str]. *)
Definition nonempty (s : string) : bool :=
  match s with EmptyString => false | _ => true end.

(** ** WordNormalizer: [clean_word] *)

(** The characters the class [[^A-Za-z\-\']] does not match. *)
Definition keeps (c : ascii) : bool :=
  is_ascii_letter c || Ascii.eqb c "-" || Ascii.eqb c "'".

(** [re.sub(r"[^A-Za-z\-\']", "", w).strip()] *)
Definition clean_word (w : string) : string := strip (sfilter keeps w).

(** ** RootLexicon *)

(** The keys of the dict [COMMON_ROOTS], in the order of the literal (the
    order [keys()] yields them in).  The explanations are display text. *)
Definition COMMON_ROOTS : list string :=
  [ "phono"; "photo"; "tele"; "geo"; "auto"; "chrono"; "micro"; "macro";
    "graph"; "bio"; "psycho"; "hydro"; "logos";
    "port"; "scrib"; "script"; "spect"; "vid"; "vis"; "dict"; "ject";
    "rupt"; "cred"; "terra"; "aqua"; "bene"; "mal"; "mater"; "pater";
    "urb"; "vac"; "voc"; "ann"; "mort";
    "pre"; "re"; "un"; "mis"; "anti"; "sub"; "inter"; "trans"; "tri";
    "ful"; "less"; "ology"; "ist" ].

(** ** RootMatcher *)

(** [sorted(keys, key=len, reverse=True)]: Python's sort is stable, also
    under [reverse=True], so keys of equal length keep their order. *)
Fixpoint insert_by_len (x : string) (l : list string) : list string :=
  match l with
  | [] => [x]
  | y :: r =>
      if (String.length y <? String.length x)%nat then x :: l
      else y :: insert_by_len x r
  end.

Definition sorted_by_len_desc (keys : list string) : list string :=
  fold_left (λ acc x, insert_by_len x acc) keys [].

(** A compiled alternation ["|".join(...)] of literal patterns is the list
    of its alternatives, in the order the matcher tries them.  Joining no
    key at all gives the empty pattern, which has the empty alternative. *)
Definition compile_alternation (keys : list string) : list string :=
  match sorted_by_len_desc keys with
  | [] => [EmptyString]
  | alts => alts
  end.



(** Under [re.IGNORECASE] a pattern character matches a text character
    when both have the same lower case. *)
Definition ichar_eq (p c : ascii) : bool :=
  Ascii.eqb (char_lower p) (char_lower c).

(** The literal [p] matches at the start of [s], ignoring case. *)
Fixpoint imatch (p s : string) : bool :=
  match p, s with
  | EmptyString, _ => true
  | String a p', String c s' => ichar_eq a c && imatch p' s'
  | String _ _, EmptyString => false
  end.

(** One match attempt at the start of [s]: the first alternative that
    matches wins. *)
Fixpoint match_at (alts : list string) (s : string) : option string :=
  match alts with
  | [] => None
  | p :: r => if imatch p s then Some p else match_at r s
  end.

(** [regex.finditer(s)]: scan from the left; a match at [pos] is reported
    with the text it covers and the scan resumes behind it, so matches do
    not overlap.  [skip] counts the characters still covered by the last
    match.  (An empty alternative comes last in a compiled alternation and
    so matches only where no other does, the end of the text included.) *)
Fixpoint scan (alts : list string) (pos skip : nat) (s : string)
  : list (nat * string) :=
  match s with
  | EmptyString =>
      match skip, match_at alts s with
      | O, Some _ => [(pos, EmptyString)]
      | _, _ => []
      end
  | String _ r =>
      match skip with
      | S k => scan alts (S pos) k r
      | O =>
          match match_at alts s with
          | Some p =>
              (pos, substring 0 (String.length p) s)
                :: scan alts (S pos) (String.length p - 1) r
          | None => scan alts (S pos) 0 r
          end
      end
  end.

Definition finditer (alts : list string) (s : string) : list (nat * string) :=
  scan alts 0 0 s.

Definition ROOT_REGEX : list string := compile_alternation COMMON_ROOTS.

(** [sorted(set(xs))] on strings. *)
Definition sorted_set (xs : list string) : list string :=
  merge_sort String.le (remove_dups xs).

(** [sorted(set(m.group(0).lower() for m in regex.finditer(w)))] *)
Definition matches_with (alts : list string) (w : string) : list string :=
  sorted_set (map (λ m, lower (snd m)) (finditer alts w)).

(** The root hints of the handler (line 278). *)
Definition matches (w : string) : list string := matches_with ROOT_REGEX w.

(** ** LocalDataset *)

(** A row of the dataset: the dict with the keys [word], [etymology] and
    [notes] that the loader builds. *)
Record Entry : Type := mkEntry {
  word : string;
  etymology : string;
  notes : string;
}.

Global Instance Entry_eq_dec : EqDecision Entry.
Proof. solve_decision. Defined.

(** [{r["word"].lower(): r for r in local_rows}]: the comprehension stores
    the rows in order, a later row replacing an earlier one at its key. *)
Definition local_map (local_rows : list Entry) : gmap string Entry :=
  fold_left (λ m r, <[lower (word r) := r]> m) local_rows ∅.

(** The last row of [rows] filed under [key], which is what the spec calls
    [lookup]. *)
Fixpoint last_with_key (key : string) (rows : list Entry) : option Entry :=
  match rows with
  | [] => None
  | r :: rest =>
      match last_with_key key rest with
      | Some r' => Some r'
      | None => if decide (lower (word r) = key) then Some r else None
      end
  end.

(** ** The remote service *)

(** Values decoded from JSON, which are also the Python values the lookup
    passes around: [JNull] is [None].  [JDict] lists the items of a dict in
    insertion order, one per key.  A number that is not an integer behaves,
    in every operation below, like a non-zero integer or like zero. *)
#[warnings="-register-all"]
Inductive Json : Type :=
  | JNull
  | JBool (b : bool)
  | JNum (n : Z)
  | JStr (s : string)
  | JList (l : list Json)
  | JDict (items : list (string * Json)).

(** The two request shapes sent to [WIKI_API]; the other parameters are
    constants. *)
Inductive Request : Type :=
  | ParsePage (page : Json)
  | OpenSearch (search : string).

(** What [requests.get] does: it raises (no connection, time-out after 12
    seconds), or it delivers a response with a status and a body;
    [body = None] is a body that [resp.json()] cannot decode. *)
Inductive Reply : Type :=
  | NetFail
  | HttpReply (status_ok : bool) (body : option Json).

(** The exceptions the modelled code can raise, all subclasses of
    [Exception]. *)
Inductive Exn : Type :=
  | RequestException
  | HTTPError
  | JSONDecodeError
  | AttributeError
  | TypeError
  | KeyError
  | CsvError.

Inductive Res (A : Type) : Type :=
  | Ok (a : A)
  | Raise (e : Exn).
Global Arguments Ok {A} a.
Global Arguments Raise {A} e.

Global Instance Res_ret : MRet Res := λ A a, Ok a.

Global Instance Res_bind : MBind Res := λ A B k m,
  match m with
  | Ok a => k a
  | Raise e => Raise e
  end.

(** The service answers a request knowing the requests made before it. *)
Definition Oracle : Type := list Request → Request → Reply.

(** Computations that may call the service and may raise: they read the
    oracle and extend the log of the requests sent. *)
Definition Net (A : Type) : Type :=
  Oracle → list Request → Res A * list Request.

Global Instance Net_ret : MRet Net := λ A a _ log, (Ok a, log).

Global Instance Net_bind : MBind Net := λ A B k m net log,
  match m net log with
  | (Ok a, log') => k a net log'
  | (Raise e, log') => (Raise e, log')
  end.

Definition raise {A} (e : Exn) : Net A := λ _ log, (Raise e, log).

(** [try: m  except Exception: return d] *)
Definition try_except {A} (m : Net A) (d : A) : Net A :=
  λ net log,
    match m net log with
    | (Ok a, log') => (Ok a, log')
    | (Raise _, log') => (Ok d, log')
    end.

Definition lift {A} (r : Res A) : Net A := λ _ log, (r, log).

(** [requests.get(WIKI_API, params=..., timeout=12)] *)
Definition http_get (req : Request) : Net Reply :=
  λ net log, (Ok (net log req), log ++ [req]).

(** [requests.get] followed by [resp.raise_for_status()] and
    [resp.json()]. *)
Definition get_json (req : Request) : Net Json :=
  resp ← http_get req;
  match resp with
  | NetFail => raise RequestException
  | HttpReply false _ => raise HTTPError
  | HttpReply true None => raise JSONDecodeError
  | HttpReply true (Some data) => mret data
  end.

(** Python truthiness. *)
Definition truthy (v : Json) : bool :=
  match v with
  | JNull => false
  | JBool b => b
  | JNum n => negb (n =? 0)%Z
  | JStr s => nonempty s
  | JList l => match l with [] => false | _ => true end
  | JDict d => match d with [] => false | _ => true end
  end.

Fixpoint assoc (k : string) (items : list (string * Json)) : option Json :=
  match items with
  | [] => None
  | (k', v) :: r => if decide (k' = k) then Some v else assoc k r
  end.

(** [v.get(k)]: only a dict has the method. *)
Definition py_get (v : Json) (k : string) : Res Json :=
  match v with
  | JDict items => Ok (default JNull (assoc k items))
  | _ => Raise AttributeError
  end.

(** [a or b] *)
Definition py_or (a b : Json) : Json := if truthy a then a else b.

Definition wiktionary_parse (title : Json) : Net Json :=
  try_except
    (data ← get_json (ParsePage title);
     parse ← lift (py_get data "parse");
     lift (py_get (py_or parse (JDict [])) "text"))
    JNull.

(** The values [for t in v] runs through. *)
Definition py_iter (v : Json) : Res (list Json) :=
  match v with
  | JList l => Ok l
  | JStr s => Ok (map (λ c, JStr (String c EmptyString)) (list_ascii_of_string s))
  | JDict items => Ok (map (λ kv, JStr (fst kv)) items)
  | _ => Raise TypeError
  end.

(** The loop [for t in titles: if t.lower() == low: return t]; [None] when
    it runs to its end.  Only a [str] has [lower]. *)
Fixpoint first_equal (low : string) (ts : list Json) : Res (option Json) :=
  match ts with
  | [] => Ok None
  | JStr t :: r =>
      if decide (lower t = low) then Ok (Some (JStr t)) else first_equal low r
  | _ :: _ => Raise AttributeError
  end.

(** [v[0]] *)
Definition py_first (v : Json) : Res Json :=
  match v with
  | JList (x :: _) => Ok x
  | JStr (String c _) => Ok (JStr (String c EmptyString))
  | JDict _ => Raise KeyError
  | _ => Raise TypeError
  end.

(** [data[1] if isinstance(data, list) and len(data) >= 2 else []] *)
Definition titles_of (data : Json) : Json :=
  match data with
  | JList (_ :: t :: _) => t
  | _ => JList []
  end.

Definition wiktionary_opensearch (word : string) : Net Json :=
  try_except
    (data ← get_json (OpenSearch word);
     let titles := titles_of data in
     let low := lower word in
     ts ← lift (py_iter titles);
     hit ← lift (first_equal low ts);
     match hit with
     | Some t => mret t
     | None => if truthy titles then lift (py_first titles) else mret JNull
     end)
    JNull.

(** The loop over the candidate titles of [fetch_etymology_html]; [None]
    when no candidate yields a page. *)
Fixpoint try_candidates (cands : list string) : Net (option (Json * Json)) :=
  match cands with
  | [] => mret None
  | cand :: r =>
      html ← wiktionary_parse (JStr cand);
      if truthy html then mret (Some (html, JStr cand)) else try_candidates r
  end.

Definition fetch_etymology_html (word : string) : Net (Json * Json) :=
  found ← try_candidates [lower word; capitalize word; word];
  match found with
  | Some r => mret r
  | None =>
      title ← wiktionary_opensearch word;
      if truthy title then
        html ← wiktionary_parse title;
        if truthy html then mret (html, title) else mret (JNull, JNull)
      else mret (JNull, JNull)
  end.


(** ** Section extraction *)

(** The tree [BeautifulSoup] builds.  [Text] is a plain string of the page;
    [Other] stands for the leaves that have no tag name and no text of
    their own for [get_text] (comments, declarations, the content of
    [script] and [style]). *)
#[warnings="-register-all"]
Inductive Node : Type :=
  | Text (s : string)
  | Other
  | Elem (name : string) (children : list Node).

(** [getattr(n, "name", None)] *)
Definition node_name (n : Node) : option string :=
  match n with
  | Elem name _ => Some name
  | _ => None
  end.

(** The plain strings below a node, in document order. *)
Fixpoint strings (n : Node) : list string :=
  match n with
  | Text s => [s]
  | Other => []
  | Elem _ ch =>
      (fix go (l : list Node) : list string :=
         match l with
         | [] => []
         | c :: r => strings c ++ go r
         end) ch
  end.

(** [n.get_text(" ", strip=True)]: the strings below [n], each stripped,
    the empty ones dropped, joined by one space. *)
Definition get_text (n : Node) : string :=
  String.concat " " (filter (λ s, nonempty s) (map strip (strings n))).

(** [int(name[1])] for the names of the list [["h2", "h3", "h4"]]; [None]
    for a name that is not in the list. *)
Definition heading_level (name : option string) : option nat :=
  match name with
  | Some n =>
      if decide (n = "h2") then Some 2
      else if decide (n = "h3") then Some 3
      else if decide (n = "h4") then Some 4
      else None
  | None => None
  end.

(** [name in ["p", "ul", "ol", "dl"]] *)
Definition is_block (name : option string) : bool :=
  match name with
  | Some n => bool_decide (n ∈ ["p"; "ul"; "ol"; "dl"])
  | None => false
  end.

(** The position behind a word character is a boundary [\b] when the text
    ends there or goes on with a character outside [\w]. *)
Definition boundary_after (s : string) : bool :=
  match s with
  | EmptyString => true
  | String c _ => negb (is_word_char c)
  end.

Fixpoint sdrop (n : nat) (s : string) : string :=
  match n, s with
  | O, _ => s
  | S k, String _ r => sdrop k r
  | S _, EmptyString => EmptyString
  end.

(** [re.search(r"\bEtymology\b", s, re.IGNORECASE)]; [prev] tells whether
    the character before [s] is a word character. *)
Fixpoint search_from (prev : bool) (s : string) : bool :=
  match s with
  | EmptyString => false
  | String c r =>
      (negb prev && imatch "Etymology" s && boundary_after (sdrop 9 s))
      || search_from (is_word_char c) r
  end.

Definition is_etymology_heading (heading_text : string) : bool :=
  search_from false heading_text.

Record EtymologySection : Type := mkSection {
  heading : string;
  text : string;
}.

Global Instance EtymologySection_eq_dec : EqDecision EtymologySection.
Proof. solve_decision. Defined.

(** The inner loop over [h.next_siblings]: it stops at a heading of the
    list whose level does not exceed [current_level], and appends the text
    of every [p], [ul], [ol] and [dl] met before. *)
Fixpoint collect (current_level : nat) (sibs : list Node) : list string :=
  match sibs with
  | [] => []
  | sib :: rest =>
      let name := node_name sib in
      match heading_level name with
      | Some lvl =>
          if (lvl <=? current_level)%nat then []
          else (if is_block name then [get_text sib] else [])
                 ++ collect current_level rest
      | None =>
          (if is_block name then [get_text sib] else [])
            ++ collect current_level rest
      end
  end.

Definition newline : string := String "010" EmptyString.

(** The body of the outer loop for one node [h] that [find_all] may or may
    not select, with the siblings that follow it. *)
Definition section_at (h : Node) (next_siblings : list Node)
  : list EtymologySection :=
  match heading_level (node_name h) with
  | Some current_level =>
      let heading_text := get_text h in
      if is_etymology_heading heading_text then
        match collect current_level next_siblings with
        | [] => []
        | texts =>
            [ {| heading := heading_text;
                 text := String.concat (newline +:+ newline) texts |} ]
        end
      else []
  | None => []
  end.

(** [soup.find_all(["h2", "h3", "h4"])] visits every node below the root in
    document order; each one is handled with its following siblings. *)
Fixpoint visit (n : Node) (next_siblings : list Node)
  : list EtymologySection :=
  section_at n next_siblings ++
  match n with
  | Elem _ ch =>
      (fix go (l : list Node) : list EtymologySection :=
         match l with
         | [] => []
         | c :: r => visit c r ++ go r
         end) ch
  | _ => []
  end.

Fixpoint visit_all (l : list Node) : list EtymologySection :=
  match l with
  | [] => []
  | c :: r => visit c r ++ visit_all r
  end.

(** [extract_etymology_sections] behind the parser: [soup] is the list of
    the top-level nodes of the page. *)
Definition etymology_sections (soup : list Node) : list EtymologySection :=
  visit_all soup.

(** ** ResolutionPipeline *)

(** What the handler of "Explain origins" shows.
    - [InvalidInput]: "Please enter letters only."
    - [FoundLocal w row]: "Found in local database", the etymology of
      [row], and its notes when they are not empty.
    - in the other cases "Not in local database." and the root hints, then
      - [HeuristicOnly]: nothing more, the online lookup is off;
      - [RemoteNotFound]: "Online lookup failed";
      - [RemoteFound]: the sections found on the page [title], or "No
        explicit Etymology section" when there is none;
      - [RemoteUnparsed]: the page text delivered is not a [str]; it is
        handed to [BeautifulSoup] as it is, whose behaviour on it is not
        modelled;
      - [Uncaught]: an exception of the lookup or of the comparison of
        the title ends the handler. *)
Inductive Outcome : Type :=
  | InvalidInput
  | FoundLocal (w : string) (row : Entry)
  | HeuristicOnly (hints : list string)
  | RemoteNotFound (hints : list string)
  | RemoteFound (hints : list string) (title : Json)
      (sections : list EtymologySection)
  | RemoteUnparsed (hints : list string) (html : Json)
  | Uncaught (e : Exn).

Section Pipeline.

(** [BeautifulSoup(html, "html.parser")], the parser of the bs4 library. *)
Variable parse_html : string → list Node.

Definition extract_etymology_sections (html : string)
  : list EtymologySection :=
  etymology_sections (parse_html html).

(** [title and title.lower() != w.lower()], the test for the note "Showing
    results for"; only a [str] has [lower]. *)
Definition title_differs (title : Json) (w : string) : Res bool :=
  if truthy title then
    match title with
    | JStr t => Ok (negb (String.eqb (lower t) (lower w)))
    | _ => Raise AttributeError
    end
  else Ok false.

(** The branch "Not in local database." of the handler (lines 276-302):
    the root hints, then the online lookup when it is switched on. *)
Definition not_local (net : Oracle) (w : string) (use_online : bool)
  : Outcome * list Request :=
  let hints := matches w in
  if use_online then
    match fetch_etymology_html w net [] with
    | (Ok (html, title), log) =>
        if negb (truthy html) then (RemoteNotFound hints, log)
        else
          match title_differs title w with
          | Ok _ =>
              match html with
              | JStr h =>
                  (RemoteFound hints title (extract_etymology_sections h),
                   log)
              | _ => (RemoteUnparsed hints html, log)
              end
          | Raise e => (Uncaught e, log)
          end
    | (Raise e, log) => (Uncaught e, log)
    end
  else (HeuristicOnly hints, []).

(** The handler of the button "Explain origins" (lines 262-302), run
    against a service [net]; it returns the outcome and the requests it
    has sent. *)
Definition resolve (local_rows : list Entry) (net : Oracle)
    (raw : string) (use_online : bool) : Outcome * list Request :=
  let w := clean_word raw in
  if negb (nonempty w) then (InvalidInput, [])
  else
    let key := lower w in
    match local_map local_rows !! key with
    | Some row =>
        if nonempty (etymology row) then (FoundLocal w row, [])
        else not_local net w use_online
    | None => not_local net w use_online
    end.
End Pipeline.

(** ** Dataset storage: the [csv] module, dialect [excel] *)

(** The loader and the saver go through [csv.DictReader] and
    [csv.DictWriter] with the default dialect: delimiter [,], quote
    character and doubled quotes, minimal quoting, line terminator
    [\r\n], no escape character.  The reader follows the state machine of
    CPython (3.11 and later, where [EOL] is a mark of its own and not the
    character 0).  A file is its content as text, opened with
    [newline=""]; the limit the module puts on the length of a field
    (131072 characters unless raised) and the failures of the file system
    other than a missing file are not modelled. *)

Definition QUOTE : ascii := "034"%char.
Definition CR : ascii := "013"%char.
Definition LF : ascii := "010"%char.
Definition CRLF : string := String CR (String LF EmptyString).

(** The lines a text file opened with [newline=""] yields: a line ends
    behind [\n], behind [\r\n], or behind a [\r] that no [\n] follows, and
    keeps its ending. *)
Fixpoint splitlines (s : string) : list string :=
  match s with
  | EmptyString => []
  | String c r =>
      if Ascii.eqb c LF then String c EmptyString :: splitlines r
      else if Ascii.eqb c CR then
        match r with
        | String d r' =>
            if Ascii.eqb d LF then CRLF :: splitlines r'
            else String c EmptyString :: splitlines r
        | EmptyString => [String c EmptyString]
        end
      else
        match splitlines r with
        | [] => [String c EmptyString]
        | l :: ls => String c l :: ls
        end
  end.

(** The states of the reader ([ParserState] of [_csv.c]); the states for
    an escape character are left out, the dialect has none.  [FAILED]
    stands for the raised [csv.Error]. *)
Inductive ParserState : Type :=
  | START_RECORD
  | START_FIELD
  | IN_FIELD
  | IN_QUOTED_FIELD
  | QUOTE_IN_QUOTED_FIELD
  | EAT_CRNL
  | FAILED.

Global Instance ParserState_eq_dec : EqDecision ParserState.
Proof. solve_decision. Defined.

Record Parser : Type := mkParser {
  state : ParserState;
  field : string;
  fields : list string;
}.

(** What the reader is fed: the characters of a line, and the mark [EOL]
    behind each line. *)
Inductive Input : Type :=
  | Ch (c : ascii)
  | EOL.

Definition parse_reset : Parser :=
  {| state := START_RECORD; field := EmptyString; fields := [] |}.

Definition parse_add_char (p : Parser) (c : ascii) (st : ParserState)
  : Parser :=
  {| state := st;
     field := field p +:+ String c EmptyString;
     fields := fields p |}.

Definition parse_save_field (p : Parser) (st : ParserState) : Parser :=
  {| state := st; field := EmptyString; fields := fields p ++ [field p] |}.

Definition set_state (p : Parser) (st : ParserState) : Parser :=
  {| state := st; field := field p; fields := fields p |}.

Definition is_newline (c : ascii) : bool := Ascii.eqb c LF || Ascii.eqb c CR.
Definition is_delimiter (c : ascii) : bool := Ascii.eqb c ",".
Definition is_quotechar (c : ascii) : bool := Ascii.eqb c QUOTE.

Definition start_field (p : Parser) (i : Input) : Parser :=
  match i with
  | EOL => parse_save_field p START_RECORD
  | Ch c =>
      if is_newline c then parse_save_field p EAT_CRNL
      else if is_quotechar c then set_state p IN_QUOTED_FIELD
      else if is_delimiter c then parse_save_field p START_FIELD
      else parse_add_char p c IN_FIELD
  end.

(** [parse_process_char] *)
Definition parse_process_char (p : Parser) (i : Input) : Parser :=
  match state p with
  | START_RECORD =>
      match i with
      | EOL => p
      | Ch c => if is_newline c then set_state p EAT_CRNL else start_field p i
      end
  | START_FIELD => start_field p i
  | IN_FIELD =>
      match i with
      | EOL => parse_save_field p START_RECORD
      | Ch c =>
          if is_newline c then parse_save_field p EAT_CRNL
          else if is_delimiter c then parse_save_field p START_FIELD
          else parse_add_char p c IN_FIELD
      end
  | IN_QUOTED_FIELD =>
      match i with
      | EOL => p
      | Ch c =>
          if is_quotechar c then set_state p QUOTE_IN_QUOTED_FIELD
          else parse_add_char p c IN_QUOTED_FIELD
      end
  | QUOTE_IN_QUOTED_FIELD =>
      match i with
      | EOL => parse_save_field p START_RECORD
      | Ch c =>
          if is_quotechar c then parse_add_char p c IN_QUOTED_FIELD
          else if is_delimiter c then parse_save_field p START_FIELD
          else if is_newline c then parse_save_field p EAT_CRNL
          else parse_add_char p c IN_FIELD
      end
  | EAT_CRNL =>
      match i with
      | EOL => set_state p START_RECORD
      | Ch c => if is_newline c then p else set_state p FAILED
      end
  | FAILED => p
  end.

(** The characters of one line, then [EOL]. *)
Fixpoint feed (p : Parser) (line : string) : Parser :=
  match line with
  | EmptyString => parse_process_char p EOL
  | String c r => feed (parse_process_char p (Ch c)) r
  end.

(** The rows the reader yields from the lines of a file, and whether it
    then raises [csv.Error].  A row is complete when the parser is back in
    [START_RECORD] behind a line; at the end of the input a row still open
    is yielded as it stands. *)
Fixpoint read_rows (p : Parser) (lines : list string)
  : list (list string) * bool :=
  match lines with
  | [] =>
      if nonempty (field p) || bool_decide (state p = IN_QUOTED_FIELD)
      then ([fields p ++ [field p]], false)
      else ([], false)
  | line :: rest =>
      let p' := feed p line in
      match state p' with
      | FAILED => ([], true)
      | START_RECORD =>
          let '(rows, failed) := read_rows parse_reset rest in
          (fields p' :: rows, failed)
      | _ => read_rows p' rest
      end
  end.

(** [csv.reader(f)] on the file with content [text]. *)
Definition csv_reader (text : string) : list (list string) * bool :=
  read_rows parse_reset (splitlines text).

(** The dict [csv.DictReader] makes of a row: [dict(zip(fieldnames, row))],
    then [None] for every field name the row is too short for.  (The
    surplus of a row that is too long is filed under the key [None], which
    no [get] of the loader asks for.) *)
Definition row_dict (fieldnames row : list string)
  : gmap string (option string) :=
  let d := fold_left (λ m kv, <[kv.1 := Some kv.2]> m)
             (zip fieldnames row) ∅ in
  fold_left (λ m k, <[k := None]> m) (drop (length row) fieldnames) d.

(** [r.get(k)] and [r.get(k, "")]; the result [None] is Python's [None]. *)
Definition dict_get (r : gmap string (option string)) (k : string)
  : option string :=
  default None (r !! k).

Definition dict_get_default (r : gmap string (option string)) (k : string)
  : option string :=
  default (Some EmptyString) (r !! k).

(** [v.strip()], which [None] does not have. *)
Definition py_strip (v : option string) : Res string :=
  match v with
  | Some s => Ok (strip s)
  | None => Raise AttributeError
  end.

(** The dict literal of the loader's loop body. *)
Definition make_entry (r : gmap string (option string)) : Res Entry :=
  w ← py_strip (dict_get_default r "word");
  e ← py_strip (dict_get_default r "etymology");
  n ← py_strip (dict_get_default r "notes");
  mret {| word := w; etymology := e; notes := n |}.

(** [if r.get("word")] *)
Definition has_word (r : gmap string (option string)) : bool :=
  match dict_get r "word" with
  | Some w => nonempty w
  | None => false
  end.

(** The loop [for r in reader] of the loader over the rows behind the
    header; [DictReader] passes over the rows that are [[]]. *)
Fixpoint load_loop (fieldnames : list string) (rows : list (list string))
    (failed : bool) : Res (list Entry) :=
  match rows with
  | [] => if failed then Raise CsvError else Ok []
  | row :: rest =>
      match row with
      | [] => load_loop fieldnames rest failed
      | _ =>
          let r := row_dict fieldnames row in
          if has_word r then
            e ← make_entry r;
            es ← load_loop fieldnames rest failed;
            mret (e :: es)
          else load_loop fieldnames rest failed
      end
  end.

(** The loader on the content of the file. *)
Definition load_text (text : string) : Res (list Entry) :=
  match csv_reader text with
  | ([], failed) => if failed then Raise CsvError else Ok []
  | (fieldnames :: rows, failed) => load_loop fieldnames rows failed
  end.

(** The writer quotes a field that holds the delimiter, the quote
    character or a character of the line terminator, and doubles the
    quote characters in it. *)
Definition needs_quote (f : string) : bool :=
  negb (sforall (λ c, negb (is_delimiter c || is_quotechar c || is_newline c)) f).

Fixpoint double_quotes (f : string) : string :=
  match f with
  | EmptyString => EmptyString
  | String c r =>
      if is_quotechar c then String c (String c (double_quotes r))
      else String c (double_quotes r)
  end.

Definition write_field (f : string) : string :=
  if needs_quote f
  then String QUOTE (double_quotes f +:+ String QUOTE EmptyString)
  else f.

(** [writer.writerow(fields)]; a row that is one empty field is written
    quoted. *)
Definition writerow (fs : list string) : string :=
  match fs with
  | [EmptyString] => String QUOTE (String QUOTE CRLF)
  | _ => String.concat "," (map write_field fs) +:+ CRLF
  end.

Definition fieldnames : list string := ["word"; "etymology"; "notes"].

(** The text [save_db_to_path] writes: the header, then one row per entry
    with the values in the order of [fieldnames]. *)
Definition csv_text (rows : list Entry) : string :=
  writerow fieldnames +:+
  String.concat EmptyString
    (map (λ r, writerow [word r; etymology r; notes r]) rows).

(** The files, by path, with their content as text. *)
Definition load_db_from_path (fs : gmap string string) (path : string)
  : Res (list Entry) :=
  match fs !! path with
  | Some text => load_text text
  | None => Ok []
  end.

Definition save_db_to_path (fs : gmap string string) (path : string)
    (rows : list Entry) : gmap string string :=
  <[path := csv_text rows]> fs.

(** ** Notions used to state the properties *)


(** The literal [p] occurs in [w] at offset [i], ignoring case. *)
Definition occurs_at (p w : string) (i : nat) : bool := imatch p (sdrop i w).

(** Every node below the root, in document order, with the siblings that
    follow it. *)
Fixpoint positions_of (n : Node) (next_siblings : list Node)
  : list (Node * list Node) :=
  (n, next_siblings) ::
  match n with
  | Elem _ ch =>
      (fix go (l : list Node) : list (Node * list Node) :=
         match l with
         | [] => []
         | c :: r => positions_of c r ++ go r
         end) ch
  | _ => []
  end.

Fixpoint positions (l : list Node) : list (Node * list Node) :=
  match l with
  | [] => []
  | c :: r => positions_of c r ++ positions r
  end.

(** The last character of [s] is a word character; [prev] answers for the
    empty [s]. *)
Fixpoint ends_in_word (prev : bool) (s : string) : bool :=
  match s with
  | EmptyString => prev
  | String c r => ends_in_word (is_word_char c) r
  end.

(** The text holds "Etymology" as a word, in any case: an occurrence that
    no word character precedes and none follows. *)
Definition has_word_etymology (s : string) : Prop :=
  ∃ pre m post,
    s = pre +:+ m +:+ post ∧ lower m = "etymology"
    ∧ ends_in_word false pre = false ∧ boundary_after post = true.

(** A sibling at which the collection for a heading of level [lvl] ends. *)
Definition ends_section (lvl : nat) (n : Node) : bool :=
  match heading_level (node_name n) with
  | Some l => (l <=? lvl)%nat
  | None => false
  end.

Fixpoint take_until {A} (stop : A → bool) (l : list A) : list A :=
  match l with
  | [] => []
  | x :: r => if stop x then [] else x :: take_until stop r
  end.

(** The body of a section as the specification words it: the text of the
    paragraph, list and definition-list blocks among the siblings that
    precede the next heading of the same or a higher rank. *)
Definition body_blocks (lvl : nat) (sibs : list Node) : list string :=
  map get_text
    (filter (λ n, is_block (node_name n) = true)
       (take_until (ends_section lvl) sibs)).

(** The section of one position, as the specification words it: none
    unless the node is a heading whose text matches and at least one block
    follows. *)
Definition section_of (pos : Node * list Node) : option EtymologySection :=
  match heading_level (node_name pos.1) with
  | Some lvl =>
      if is_etymology_heading (get_text pos.1)
         && bool_decide (body_blocks lvl pos.2 ≠ [])
      then Some {| heading := get_text pos.1;
                   text := String.concat (newline +:+ newline)
                             (body_blocks lvl pos.2) |}
      else None
  | None => None
  end.


(** ** Notions used in the proofs *)

(** The order of the alternatives: the longer ones first. *)
Definition longer_first (a b : string) : Prop :=
  String.length b ≤ String.length a.








(** ** The rest of the script *)

(** The pick list (line 201):
    [sorted({r["word"] for r in local_rows
             if r["notes"].lower().strip() == "grade8"}) or []]. *)
Definition grade8 (local_rows : list Entry) : list string :=
  sorted_set
    (map word
       (filter (λ r, strip (lower (notes r)) = "grade8") local_rows)).

(** The counters kept in [st.session_state], both [0] when absent. *)
Record Session : Type := mkSession {
  score : nat;
  rounds : nat;
}.

Definition new_session : Session := {| score := 0; rounds := 0 |}.

(** The handler of the button "Check guess" (lines 249-256): the session
    afterwards, and whether the answer is "Nice!". *)
Definition check_guess (s : Session) (guess : string) : Session * bool :=
  let rounds' := S (rounds s) in
  let g := lower (clean_word guess) in
  if bool_decide (g ∈ COMMON_ROOTS)
  then ({| score := S (score s); rounds := rounds' |}, true)
  else ({| score := score s; rounds := rounds' |}, false).

(** The lines [StringIO(text)] yields: a line ends behind [\n] only. *)
Fixpoint splitlines_lf (s : string) : list string :=
  match s with
  | EmptyString => []
  | String c r =>
      if Ascii.eqb c LF then String c EmptyString :: splitlines_lf r
      else
        match splitlines_lf r with
        | [] => [String c EmptyString]
        | l :: ls => String c l :: ls
        end
  end.

(** The loop of the upload form (lines 220-228): the same as the loader's,
    over [csv.DictReader(StringIO(text))]. *)
Definition upload_rows (text : string) : Res (list Entry) :=
  match read_rows parse_reset (splitlines_lf text) with
  | ([], failed) => if failed then Raise CsvError else Ok []
  | (fieldnames :: rows, failed) => load_loop fieldnames rows failed
  end.

(** The two choices of the radio button; [mode.startswith("Replace")]
    tells them apart. *)
Inductive Mode : Type :=
  | Append
  | Replace.

(** [APP_DIR / "etymology_db.csv"], as a path within the directory of the
    script. *)
Definition DEFAULT_DB_PATH : string := "etymology_db.csv".

(** What the upload form answers: "Saved [n] rows. Database now has
    [total] entries.", or "Upload failed". *)
Inductive UploadResult : Type :=
  | Saved (n total : nat)
  | UploadFailed.

(** The upload form (lines 217-237) for an uploaded file; [content] is
    its text, [None] when its bytes are not UTF-8.  It gives the answer,
    the list [local_rows] and the files afterwards.  Every exception of
    the [try] block comes before the list is changed. *)
Definition upload (local_rows : list Entry) (fs : gmap string string)
    (content : option string) (mode : Mode)
  : UploadResult * list Entry * gmap string string :=
  match content with
  | None => (UploadFailed, local_rows, fs)
  | Some text =>
      match upload_rows text with
      | Raise _ => (UploadFailed, local_rows, fs)
      | Ok new_rows =>
          let local_rows' :=
            match mode with
            | Replace => new_rows
            | Append => local_rows ++ new_rows
            end in
          (Saved (length new_rows) (length local_rows'), local_rows',
           save_db_to_path fs DEFAULT_DB_PATH local_rows')
      end
  end.

(** ** Notions for the further properties *)

(** An entry with its three fields trimmed, and the test for a word. *)
Definition trim (e : Entry) : Entry :=
  {| word := strip (word e);
     etymology := strip (etymology e);
     notes := strip (notes e) |}.

Definition trimmed (e : Entry) : Prop := trim e = e.


(** A guess that scores. *)
Definition scores (guess : string) : bool :=
  bool_decide (lower (clean_word guess) ∈ COMMON_ROOTS).

(** The session after a run of guesses. *)
Definition play (s : Session) (guesses : list string) : Session :=
  fold_left (λ s g, (check_guess s g).1) guesses s.

(** The title the search settles on among the titles of a reply: the
    first that equals the word up to case, else the first, else [None]. *)
Definition pick_title (w : string) (titles : list string) : Json :=
  match find (λ t, bool_decide (lower t = lower w)) titles with
  | Some t => JStr t
  | None =>
      match titles with
      | t :: _ => JStr t
      | [] => JNull
      end
  end.


(** The root hints an outcome shows. *)
Definition hints_of (o : Outcome) : option (list string) :=
  match o with
  | HeuristicOnly h | RemoteNotFound h | RemoteFound h _ _
  | RemoteUnparsed h _ => Some h
  | _ => None
  end.

(** A computation sends requests and takes none back: the log grows. *)
Definition grows {A} (m : Net A) : Prop :=
  ∀ net log, ∃ r sent, m net log = (r, log ++ sent).




(** ** Sample data *)

(** Two entries with the same word up to case, an entry whose word holds
    a blank, a service that is down, and a parser that finds nothing. *)
Definition tea_first : Entry := mkEntry "Tea" "first" EmptyString.
Definition tea_second : Entry := mkEntry "tea" "second" "drink".
Definition ice_cream : Entry :=
  mkEntry "ice cream" "frozen" EmptyString.
Definition offline : Oracle := λ _ _, NetFail.
Definition no_parser : string → list Node := λ _, [].

(** A service that answers every request with a page. *)
Definition serving : Oracle := λ _ _,
  HttpReply true
    (Some (JDict [("parse", JDict [("text", JStr "<h2>Etymology</h2><p>x</p>")])])).

(** A document with the heading "Etymology 1", two paragraphs, a heading
    "Pronunciation" of the same level and its paragraph. *)
Definition etymology_page : list Node :=
  [ Elem "h3" [Elem "span" [Text "Etymology 1"]];
    Text newline;
    Elem "p" [Text "From Latin "; Elem "i" [Text "praestigium"]; Text "."];
    Elem "p" [Text " Later sense. "];
    Elem "h3" [Text "Pronunciation"];
    Elem "p" [Text "IPA"] ].

(** A page whose heading "Etymology" is followed by the next heading at
    once. *)
Definition bare_heading_page : list Node :=
  [ Elem "h3" [Text "Etymology"];
    Text newline;
    Elem "h3" [Text "Pronunciation"];
    Elem "p" [Text "IPA"] ].

(** A page whose etymology holds headings of level 5 and 6. *)
Definition deep_page : list Node :=
  [ Elem "h3" [Text "Etymology"];
    Elem "p" [Text "a"];
    Elem "h5" [Text "Etymology 2"];
    Elem "p" [Text "b"];
    Elem "h6" [Text "Notes"];
    Elem "ul" [Elem "li" [Text "c"]];
    Elem "h3" [Text "Pronunciation"];
    Elem "p" [Text "d"] ].

(** A dataset with a quoted field and a field of two lines. *)
Definition sample_rows : list Entry :=
  [ mkEntry "prestigious"
      ("From French, " +:+ String QUOTE "prestigieux"
       +:+ String QUOTE EmptyString)
      EmptyString;
    mkEntry "co-op" ("x" +:+ newline +:+ "y") "grade8" ].

(** A file whose only record has a word made of blanks. *)
Definition blank_word_file : string :=
  "word,etymology,notes" +:+ CRLF +:+ "   ,x,y" +:+ CRLF.

(** A file to upload, with a lone [\r] in an unquoted field, and one that
    holds an entry more. *)
Definition broken_upload : string :=
  "word,etymology,notes" +:+ String LF
    ("a,b,c" +:+ String CR ("d,e,f" +:+ String LF EmptyString)).

Definition good_upload : string :=
  "word,etymology,notes" +:+ CRLF +:+ " matcha ,green tea,grade8" +:+ CRLF.

(** A reply of the title search. *)
Definition search_reply : Reply :=
  HttpReply true
    (Some (JList [JStr "tea"; JList (map JStr ["Teal"; "TEA"; "tea"])])).

(** * Properties *)

(** ** Strings *)

Lemma nonempty_true (s : string) : nonempty s = true ↔ s ≠ EmptyString.
Proof. destruct s; simpl; split; congruence. Qed.

Lemma nonempty_false (s : string) : nonempty s = false ↔ s = EmptyString.
Proof. destruct s; simpl; split; congruence. Qed.

Lemma sapp_nil_l (s : string) : EmptyString +:+ s = s.
Proof. done. Qed.

Lemma sapp_cons (c : ascii) (s t : string) :
  String c s +:+ t = String c (s +:+ t).
Proof. done. Qed.




Lemma ichar_eq_lower (a c : ascii) :
  ichar_eq a c = true ↔ char_lower a = char_lower c.
Proof. unfold ichar_eq. apply Ascii.eqb_eq. Qed.

Lemma imatch_substring (p s : string) :
  imatch p s = true →
  String.length (substring 0 (String.length p) s) = String.length p
  ∧ lower (substring 0 (String.length p) s) = lower p.
Proof.
  unfold lower. revert s. induction p as [|a p IH]; intros s; simpl.
  - intros _. by destruct s.
  - destruct s as [|c s]; [done|].
    intros [Hc Hp]%andb_true_iff. apply ichar_eq_lower in Hc.
    destruct (IH s Hp) as [Hl Hw]. simpl. by rewrite Hl, Hw, Hc.
Qed.

(** ** LocalDataset: the lookup map *)

Lemma last_with_key_app (key : string) (l1 l2 : list Entry) :
  last_with_key key (l1 ++ l2) =
    match last_with_key key l2 with
    | Some r => Some r
    | None => last_with_key key l1
    end.
Proof.
  induction l1 as [|r l1 IH]; simpl.
  - by destruct (last_with_key key l2).
  - rewrite IH. by destruct (last_with_key key l2).
Qed.

Lemma fold_insert_lookup (rows : list Entry) (m : gmap string Entry)
    (key : string) :
  fold_left (λ m r, <[lower (word r) := r]> m) rows m !! key =
    match last_with_key key rows with
    | Some r => Some r
    | None => m !! key
    end.
Proof.
  revert m. induction rows as [|r rows IH]; intros m; simpl; [done|].
  rewrite IH. destruct (last_with_key key rows) as [r'|]; [done|].
  case_decide as Hk.
  - subst key. by rewrite lookup_insert_eq.
  - by rewrite lookup_insert_ne.
Qed.

(** The map finds, under a key, the last row filed under it. *)
Lemma local_map_lookup (rows : list Entry) (key : string) :
  local_map rows !! key = last_with_key key rows.
Proof.
  unfold local_map. rewrite fold_insert_lookup, lookup_empty.
  by destruct (last_with_key key rows).
Qed.

Lemma last_with_key_Some (key : string) (rows : list Entry) (r : Entry) :
  last_with_key key rows = Some r → r ∈ rows ∧ lower (word r) = key.
Proof.
  induction rows as [|r0 rows IH]; simpl; [done|].
  destruct (last_with_key key rows) as [r'|].
  - intros [= ->]. destruct IH as [? ?]; [done|]. split; [by right|done].
  - case_decide; [|done]. intros [= ->]. split; [by left|done].
Qed.

Lemma last_with_key_None (key : string) (rows : list Entry) :
  last_with_key key rows = None ↔ ∀ r, r ∈ rows → lower (word r) ≠ key.
Proof.
  induction rows as [|r0 rows IH]; simpl.
  - split; [|done]. intros _ r Hr. by apply elem_of_nil in Hr.
  - destruct (last_with_key key rows) as [r'|].
    + split; [done|]. intros H.
      assert (Some r' = None) as Hn; [|done].
      apply IH. intros r Hr. apply H. by right.
    + case_decide as Hk.
      * split; [done|]. intros H. exfalso. by apply (H r0); [left|].
      * split; [|done]. intros _ r [->|Hr]%elem_of_cons; [done|].
        by apply IH.
Qed.

(** ** ResolutionPipeline: the local dataset *)

Section LocalLookup.

Variable parse_html : string → list Node.

Lemma resolve_found (rows : list Entry) (net : Oracle) (raw : string)
    (online : bool) (e : Entry) :
  clean_word raw ≠ EmptyString →
  last_with_key (lower (clean_word raw)) rows = Some e →
  etymology e ≠ EmptyString →
  resolve parse_html rows net raw online = (FoundLocal (clean_word raw) e, []).
Proof.
  intros Hw He Het. unfold resolve.
  apply nonempty_true in Hw, Het. rewrite Hw. simpl.
  by rewrite local_map_lookup, He, Het.
Qed.

Lemma resolve_not_found (rows : list Entry) (net : Oracle) (raw : string)
    (online : bool) :
  clean_word raw ≠ EmptyString →
  (∀ r, r ∈ rows → lower (word r) = lower (clean_word raw) →
        etymology r = EmptyString) →
  resolve parse_html rows net raw online =
    not_local parse_html net (clean_word raw) online.
Proof.
  intros Hw Hrows. unfold resolve.
  apply nonempty_true in Hw. rewrite Hw. simpl.
  rewrite local_map_lookup.
  destruct (last_with_key _ rows) as [r|] eqn:Hr; [|done].
  apply last_with_key_Some in Hr as [Hin Hkey].
  rewrite (Hrows r Hin Hkey). done.
Qed.

(** C9.  When two entries of the dataset have words that are equal up to
    case, and no entry after the second has that word, the lookup map
    holds the second one under their common key: the later entry has
    replaced the earlier.  An input that normalises to that word is then
    answered with [FoundLocal] carrying the later entry, its etymology
    and its notes. *)
Theorem last_duplicate_wins (pre mid post : list Entry) (e1 e2 : Entry) :
  lower (word e1) = lower (word e2) →
  (∀ r, r ∈ post → lower (word r) ≠ lower (word e2)) →
  local_map (pre ++ e1 :: mid ++ e2 :: post) !! lower (word e2) = Some e2
  ∧ ∀ (net : Oracle) (raw : string) (online : bool),
      clean_word raw ≠ EmptyString →
      lower (clean_word raw) = lower (word e2) →
      etymology e2 ≠ EmptyString →
      resolve parse_html (pre ++ e1 :: mid ++ e2 :: post) net raw online
      = (FoundLocal (clean_word raw) e2, []).
Proof.
  intros _ Hpost.
  assert (last_with_key (lower (word e2)) (pre ++ e1 :: mid ++ e2 :: post)
          = Some e2) as Hlast.
  { rewrite last_with_key_app. simpl. rewrite last_with_key_app. simpl.
    apply last_with_key_None in Hpost. rewrite Hpost.
    by rewrite decide_True. }
  split.
  - by rewrite local_map_lookup.
  - intros net raw online Hw Hkey Het.
    apply resolve_found; [done| |done]. by rewrite Hkey.
Qed.

(** C1 (amended).  Take an entry with a non-empty etymology that is the
    last entry of the dataset under its lower-cased word.  Every input
    whose normalised form is not empty and equals the entry's word up to
    case is answered with [FoundLocal] carrying exactly that entry, with
    the online flag on or off, whatever the service would answer, and
    without a request being sent.  This covers the entry's own word when
    normalisation leaves it unchanged. *)
Theorem found_local_last_entry (rows : list Entry) (e : Entry)
    (raw : string) :
  last_with_key (lower (word e)) rows = Some e →
  etymology e ≠ EmptyString →
  clean_word raw ≠ EmptyString →
  lower (clean_word raw) = lower (word e) →
  ∀ (net : Oracle) (online : bool),
    resolve parse_html rows net raw online
    = (FoundLocal (clean_word raw) e, []).
Proof.
  intros Hlast Het Hw Hkey net online.
  apply resolve_found; [done| |done]. by rewrite Hkey.
Qed.

(** C2.  When the normalised word is not empty and every entry filed
    under it (if any) has an empty etymology, the handler with the online
    lookup off shows the root hints only: the outcome is [HeuristicOnly]
    with the match set, no request is sent, and the result is the same
    for any two behaviours of the service. *)
Theorem offline_is_heuristic_only (rows : list Entry) (raw : string) :
  clean_word raw ≠ EmptyString →
  (∀ r, r ∈ rows → lower (word r) = lower (clean_word raw) →
        etymology r = EmptyString) →
  (∀ net : Oracle,
     resolve parse_html rows net raw false
     = (HeuristicOnly (matches (clean_word raw)), []))
  ∧ (∀ net1 net2 : Oracle,
       resolve parse_html rows net1 raw false
       = resolve parse_html rows net2 raw false).
Proof.
  intros Hw Hrows.
  assert (∀ net : Oracle,
     resolve parse_html rows net raw false
     = (HeuristicOnly (matches (clean_word raw)), [])) as H.
  { intros net. by rewrite resolve_not_found. }
  split; [done|]. intros net1 net2. by rewrite !H.
Qed.

End LocalLookup.

Lemma last_duplicate_wins_witness :
  local_map [tea_first; tea_second] !! "tea" = Some tea_second
  ∧ resolve no_parser [tea_first; tea_second] offline "Tea" true
    = (FoundLocal "Tea" tea_second, []).
Proof.
  destruct (last_duplicate_wins no_parser [] [] [] tea_first tea_second)
    as [Hmap Hres].
  - reflexivity.
  - intros r Hr. by apply elem_of_nil in Hr.
  - split; [exact Hmap|].
    apply (Hres offline "Tea" true); [discriminate|reflexivity|discriminate].
Defined.

Lemma found_local_last_entry_witness :
  resolve no_parser [tea_first; tea_second] offline "TEA!" true
  = (FoundLocal "TEA" tea_second, []).
Proof.
  apply (found_local_last_entry no_parser [tea_first; tea_second] tea_second
           "TEA!").
  - reflexivity.
  - discriminate.
  - discriminate.
  - reflexivity.
Defined.

(** C1 as stated fails: an entry with a non-empty etymology is not the one
    [FoundLocal] carries when a later entry has the same word up to case,
    and it is not found at all when normalisation changes its word. *)
Lemma found_local_counterexample :
  tea_first ∈ [tea_first; tea_second]
  ∧ etymology tea_first ≠ EmptyString
  ∧ resolve no_parser [tea_first; tea_second] offline (word tea_first) false
    = (FoundLocal "Tea" tea_second, [])
  ∧ FoundLocal "Tea" tea_second ≠ FoundLocal "Tea" tea_first
  ∧ ice_cream ∈ [ice_cream]
  ∧ etymology ice_cream ≠ EmptyString
  ∧ resolve no_parser [ice_cream] offline (word ice_cream) false
    = (HeuristicOnly ["re"], []).
Proof.
  repeat split; try discriminate; try (by left); by vm_compute.
Qed.

Lemma offline_is_heuristic_only_witness :
  resolve no_parser [ice_cream] offline "bioscience" false
  = (HeuristicOnly ["bio"], [])
  ∧ resolve no_parser [ice_cream] offline "bioscience" false
    = resolve no_parser [ice_cream] serving "bioscience" false.
Proof.
  destruct (offline_is_heuristic_only no_parser [ice_cream] "bioscience")
    as [Hone Htwo].
  - discriminate.
  - intros r ->%list_elem_of_singleton. discriminate.
  - split; [apply (Hone offline)|apply (Htwo offline serving)].
Defined.

(** ** RemoteEtymologyResolver: failure is absorbed *)

Lemma try_except_ok {A} (m : Net A) (d : A) (net : Oracle)
    (log : list Request) :
  ∃ a log', try_except m d net log = (Ok a, log').
Proof.
  unfold try_except. destruct (m net log) as [[a|e] log']; eauto.
Qed.

Lemma wiktionary_parse_ok (title : Json) (net : Oracle) (log : list Request) :
  ∃ html log', wiktionary_parse title net log = (Ok html, log').
Proof. apply try_except_ok. Qed.

Lemma wiktionary_opensearch_ok (w : string) (net : Oracle)
    (log : list Request) :
  ∃ title log', wiktionary_opensearch w net log = (Ok title, log').
Proof. apply try_except_ok. Qed.


Lemma try_candidates_ok (cands : list string) (net : Oracle)
    (log : list Request) :
  ∃ found log', try_candidates cands net log = (Ok found, log').
Proof.
  revert log. induction cands as [|cand cands IH]; intros log; simpl.
  - by eexists _, _.
  - unfold mbind, Net_bind.
    destruct (wiktionary_parse_ok (JStr cand) net log) as (html & log' & ->).
    destruct (truthy html); [by eexists _, _|]. apply IH.
Qed.


Lemma fetch_etymology_html_ok (w : string) (net : Oracle)
    (log : list Request) :
  ∃ html title log',
    fetch_etymology_html w net log = (Ok (html, title), log').
Proof.
  unfold fetch_etymology_html, mbind, Net_bind.
  destruct (try_candidates_ok [lower w; capitalize w; w] net log)
    as ([[html title]|] & log1 & ->).
  { by eexists _, _, _. }
  destruct (wiktionary_opensearch_ok w net log1) as (title & log2 & ->).
  destruct (truthy title); [|by eexists _, _, _].
  destruct (wiktionary_parse_ok title net log2) as (html & log3 & ->).
  destruct (truthy html); by eexists _, _, _.
Qed.


(** The title the lookup returns is a [str] or [None]. *)
Lemma first_equal_str (low : string) (ts : list Json) (t : Json) :
  first_equal low ts = Ok (Some t) → ∃ s, t = JStr s.
Proof.
  induction ts as [|[| | |s| |] ts IH]; simpl; try done.
  case_decide; [|done]. intros [= <-]. by exists s.
Qed.

Lemma first_equal_head (low : string) (x : Json) (ts : list Json) :
  first_equal low (x :: ts) = Ok None → ∃ s, x = JStr s.
Proof. destruct x; simpl; try done. by eexists. Qed.

Lemma wiktionary_opensearch_str (w : string) (net : Oracle)
    (log log' : list Request) (title : Json) :
  wiktionary_opensearch w net log = (Ok title, log') →
  title = JNull ∨ ∃ s, title = JStr s.
Proof.
  unfold wiktionary_opensearch, try_except, mbind, Net_bind, lift, mret,
    Net_ret.
  destruct (get_json (OpenSearch w) net log) as [[data|e] log1];
    [|intros [= <- _]; by left].
  destruct (py_iter (titles_of data)) as [ts|e] eqn:Hts;
    [|intros [= <- _]; by left].
  destruct (first_equal (lower w) ts) as [[t|]|e] eqn:Hfirst;
    [| |intros [= <- _]; by left].
  { intros [= <- _]. right. by eapply first_equal_str. }
  destruct (truthy (titles_of data)); [|intros [= <- _]; by left].
  destruct (titles_of data) as [| | |s|l|items]; simpl in *; try done.
  - destruct s as [|c s]; intros [= <- _]; [by left|right; by eexists].
  - destruct l as [|x l]; [intros [= <- _]; by left|].
    injection Hts as <-. apply first_equal_head in Hfirst as [s ->].
    intros [= <- _]. right. by eexists.
  - intros [= <- _]. by left.
Qed.

Lemma try_candidates_str (cands : list string) (net : Oracle)
    (log log' : list Request) (html title : Json) :
  try_candidates cands net log = (Ok (Some (html, title)), log') →
  ∃ s, title = JStr s.
Proof.
  revert log. induction cands as [|cand cands IH]; intros log; simpl.
  - intros [=].
  - unfold mbind, Net_bind.
    destruct (wiktionary_parse_ok (JStr cand) net log) as (h & log1 & ->).
    destruct (truthy h); [|apply IH].
    intros [= _ <- _]. by eexists.
Qed.

Lemma fetch_title_str (w : string) (net : Oracle) (log log' : list Request)
    (html title : Json) :
  fetch_etymology_html w net log = (Ok (html, title), log') →
  title = JNull ∨ ∃ s, title = JStr s.
Proof.
  unfold fetch_etymology_html, mbind, Net_bind.
  destruct (try_candidates [lower w; capitalize w; w] net log)
    as [[[[h t]|]|e] log1] eqn:Hc; [| |done].
  { intros [= _ <- _]. right. by eapply try_candidates_str. }
  destruct (wiktionary_opensearch w net log1) as [[t|e] log2] eqn:Ho; [|done].
  destruct (truthy t); [|intros [= _ <- _]; by left].
  destruct (wiktionary_parse_ok t net log2) as (h & log3 & ->).
  destruct (truthy h); intros [= _ <- _]; [|by left].
  by eapply wiktionary_opensearch_str.
Qed.

Section Remote.

Variable parse_html : string → list Node.


(** No exception ends the handler: the lookup raises none, and the title
    it returns is a [str] or [None]. *)
Lemma resolve_never_uncaught (rows : list Entry) (net : Oracle)
    (raw : string) (online : bool) (e : Exn) :
  (resolve parse_html rows net raw online).1 ≠ Uncaught e.
Proof.
  unfold resolve.
  assert (∀ v, (not_local parse_html net v online).1 ≠ Uncaught e) as Hnl.
  { intros v. unfold not_local. destruct online; [|done].
    destruct (fetch_etymology_html v net []) as [[[html title]|e'] log'] eqn:Hf.
    - destruct (truthy html); [|done]. simpl.
      apply fetch_title_str in Hf as [->|[t ->]]; [by destruct html|].
      unfold title_differs. destruct (truthy (JStr t)); by destruct html.
    - destruct (fetch_etymology_html_ok v net []) as (? & ? & ? & ?).
      congruence. }
  destruct (nonempty (clean_word raw)); simpl; [|done].
  destruct (local_map rows !! _) as [row|]; [|apply Hnl].
  destruct (nonempty (etymology row)); [done|apply Hnl].
Qed.

End Remote.


Example offline_requests :
  resolve no_parser [] offline "Tea" true
  = (RemoteNotFound [],
     [ParsePage (JStr "tea"); ParsePage (JStr "Tea"); ParsePage (JStr "Tea");
      OpenSearch "Tea"]).
Proof. vm_compute. reflexivity. Qed.

(** ** Section extraction *)

Lemma Node_nested_ind (P : Node → Prop) :
  (∀ s, P (Text s)) → P Other →
  (∀ name ch, Forall P ch → P (Elem name ch)) →
  ∀ n, P n.
Proof.
  intros HT HO HE. fix IH 1. intros [s| |name ch]; [apply HT|apply HO|].
  apply HE. revert ch. fix IHch 1. intros [|c ch]; constructor.
  - apply IH.
  - apply IHch.
Qed.

(** The loop with its [break] collects what the specification describes. *)
Lemma collect_body_blocks (lvl : nat) (sibs : list Node) :
  collect lvl sibs = body_blocks lvl sibs.
Proof.
  unfold body_blocks. induction sibs as [|sib rest IH]; simpl; [done|].
  unfold ends_section.
  destruct (heading_level (node_name sib)) as [l|].
  - destruct (l <=? lvl)%nat; [done|].
    rewrite filter_cons. rewrite IH.
    destruct (is_block (node_name sib)); by case_decide.
  - rewrite filter_cons. rewrite IH.
    destruct (is_block (node_name sib)); by case_decide.
Qed.

Lemma section_at_section_of (h : Node) (sibs : list Node) :
  section_at h sibs = option_list (section_of (h, sibs)).
Proof.
  unfold section_at, section_of. simpl.
  destruct (heading_level (node_name h)) as [lvl|]; [|done].
  rewrite collect_body_blocks.
  destruct (is_etymology_heading (get_text h)); [|done]. simpl.
  destruct (body_blocks lvl sibs) as [|b bs] eqn:Hb.
  - by rewrite bool_decide_eq_false_2 by (by intros []).
  - by rewrite bool_decide_eq_true_2.
Qed.

Lemma omap_singleton {A B} (f : A → option B) (x : A) :
  option_list (f x) = omap f [x].
Proof. simpl. by destruct (f x). Qed.

Lemma visit_positions (n : Node) :
  ∀ sibs, visit n sibs = omap section_of (positions_of n sibs).
Proof.
  induction n as [s| |name ch IH] using Node_nested_ind; intros sibs.
  - reflexivity.
  - reflexivity.
  - cbn [visit positions_of]. rewrite section_at_section_of.
    change ((Elem name ch, sibs) :: ?l) with ([(Elem name ch, sibs)] ++ l).
    rewrite omap_app, <- omap_singleton. f_equal.
    induction IH as [|c r Hc _ IHr]; [done|].
    rewrite omap_app, <- IHr, <- Hc. done.
Qed.

Lemma etymology_sections_positions (doc : list Node) :
  etymology_sections doc = omap section_of (positions doc).
Proof.
  unfold etymology_sections.
  induction doc as [|c r IH]; simpl; [done|].
  by rewrite omap_app, visit_positions, IH.
Qed.

Lemma imatch_split (p s : string) :
  imatch p s = true →
  s = substring 0 (String.length p) s +:+ sdrop (String.length p) s.
Proof.
  revert s. induction p as [|a p IH]; intros s; simpl.
  - intros _. by destruct s.
  - destruct s as [|c s]; [done|]. intros [_ Hp]%andb_true_iff.
    simpl. rewrite sapp_cons. f_equal. by apply IH.
Qed.

Lemma imatch_of_lower (p m post : string) :
  lower m = lower p →
  imatch p (m +:+ post) = true ∧ sdrop (String.length p) (m +:+ post) = post.
Proof.
  unfold lower. revert m. induction p as [|a p IH]; intros [|c m]; simpl;
    try done.
  intros [= Hc Hm].
  destruct (IH m Hm) as [-> ->]. split; [|done].
  rewrite andb_true_r. apply ichar_eq_lower. done.
Qed.

Lemma search_from_spec (s : string) :
  ∀ prev,
    search_from prev s = true ↔
    ∃ pre m post,
      s = pre +:+ m +:+ post ∧ lower m = "etymology"
      ∧ ends_in_word prev pre = false ∧ boundary_after post = true.
Proof.
  induction s as [|c r IH]; intros prev.
  - split; [done|]. intros (pre & m & post & Hs & Hm & _).
    destruct pre; [|done]. destruct m; done.
  - cbn [search_from]. rewrite orb_true_iff, IH. split.
    + intros [H|(pre & m & post & -> & Hm & Hpre & Hpost)].
      * apply andb_true_iff in H as [H Hpost].
        apply andb_true_iff in H as [Hprev Hm].
        exists EmptyString, (substring 0 9 (String c r)), (sdrop 9 (String c r)).
        split; [by apply (imatch_split "Etymology")|].
        split; [by apply (imatch_substring "Etymology")|].
        split; [by apply negb_true_iff|done].
      * exists (String c pre), m, post. by rewrite sapp_cons.
    + intros (pre & m & post & Hs & Hm & Hpre & Hpost).
      destruct pre as [|c' pre].
      * left. rewrite sapp_nil_l in Hs. rewrite Hs.
        destruct (imatch_of_lower "Etymology" m post Hm) as [-> Hdrop].
        change (String.length "Etymology") with 9 in Hdrop.
        rewrite Hdrop, Hpost. simpl in Hpre. by rewrite Hpre.
      * right. rewrite sapp_cons in Hs. injection Hs as -> ->.
        by exists pre, m, post.
Qed.

(** The regular expression finds what the specification describes. *)
Lemma is_etymology_heading_spec (s : string) :
  is_etymology_heading s = true ↔ has_word_etymology s.
Proof. apply search_from_spec. Qed.

Section Extraction.

Variable parse_html : string → list Node.

(** C5.  [extract_etymology_sections] yields, in document order, the
    sections of the positions of the page: one for every heading whose
    text has "Etymology" as a word, in any case, and that at least one
    block follows; its body joins by a blank line the texts of the
    paragraph, list and definition-list siblings that come before the
    next heading of the same or a higher rank; a matching heading that no
    block follows yields nothing.  On the page with "Etymology 1", two
    paragraphs and "Pronunciation" it yields the one section made of the
    two paragraphs. *)
Theorem extraction_follows_spec :
  (∀ html,
      extract_etymology_sections parse_html html
      = omap section_of (positions (parse_html html)))
  ∧ (∀ h sibs, section_at h sibs = option_list (section_of (h, sibs)))
  ∧ (∀ lvl sibs, collect lvl sibs = body_blocks lvl sibs)
  ∧ (∀ s, is_etymology_heading s = true ↔ has_word_etymology s)
  ∧ etymology_sections etymology_page
    = [ {| heading := "Etymology 1";
           text := "From Latin praestigium ." +:+ newline +:+ newline
                   +:+ "Later sense." |} ]
  ∧ etymology_sections bare_heading_page = [].
Proof.
  split; [|split; [|split; [|split; [|split]]]].
  - intros html. apply etymology_sections_positions.
  - apply section_at_section_of.
  - apply collect_body_blocks.
  - apply is_etymology_heading_spec.
  - vm_compute. reflexivity.
  - vm_compute. reflexivity.
Qed.

End Extraction.

(** C10.  Only the headings of level 2, 3 and 4 count.  Every section
    extracted comes from a node named [h2], [h3] or [h4]; a node named
    [h5] or [h6] yields no section whatever its text and its siblings; and
    met among the siblings of a heading, such a node neither ends the
    collection nor adds to the body. *)
Theorem only_levels_2_to_4 :
  (∀ doc s,
      s ∈ etymology_sections doc →
      ∃ h sibs, (h, sibs) ∈ positions doc
        ∧ node_name h ∈ [Some "h2"; Some "h3"; Some "h4"]
        ∧ section_at h sibs = [s])
  ∧ (∀ ch sibs,
        section_at (Elem "h5" ch) sibs = []
        ∧ section_at (Elem "h6" ch) sibs = [])
  ∧ (∀ lvl ch rest,
        collect lvl (Elem "h5" ch :: rest) = collect lvl rest
        ∧ collect lvl (Elem "h6" ch :: rest) = collect lvl rest)
  ∧ etymology_sections deep_page
    = [ {| heading := "Etymology";
           text := "a" +:+ newline +:+ newline +:+ "b"
                   +:+ newline +:+ newline +:+ "c" |} ].
Proof.
  split; [|split; [|split]].
  - intros doc s. rewrite etymology_sections_positions.
    intros ([h sibs] & Hin & Hs)%list_elem_of_omap.
    exists h, sibs. split; [done|]. split.
    + unfold section_of in Hs. simpl in Hs. unfold heading_level in *.
      destruct (node_name h) as [n|]; [|done].
      repeat case_decide; subst; try done; set_solver.
    + by rewrite section_at_section_of, Hs.
  - done.
  - done.
  - vm_compute. reflexivity.
Qed.

Lemma only_levels_2_to_4_witness :
  ∃ h sibs, (h, sibs) ∈ positions deep_page
    ∧ node_name h ∈ [Some "h2"; Some "h3"; Some "h4"]
    ∧ section_at h sibs
      = [ {| heading := "Etymology";
             text := "a" +:+ newline +:+ newline +:+ "b"
                     +:+ newline +:+ newline +:+ "c" |} ].
Proof.
  apply (proj1 only_levels_2_to_4 deep_page).
  apply list_elem_of_In. vm_compute. left. reflexivity.
Defined.

(** ** RootMatcher *)

Lemma match_at_Some (alts : list string) (s q : string) :
  match_at alts s = Some q → q ∈ alts ∧ imatch q s = true.
Proof.
  induction alts as [|a r IH]; simpl; [done|].
  destruct (imatch a s) eqn:Ha.
  - intros [= ->]. split; [by left|done].
  - intros [? ?]%IH. split; [by right|done].
Qed.

Lemma match_at_None (alts : list string) (s : string) :
  match_at alts s = None → ∀ p, p ∈ alts → imatch p s = false.
Proof.
  induction alts as [|a r IH]; simpl.
  - intros _ p Hp. by apply elem_of_nil in Hp.
  - destruct (imatch a s) eqn:Ha; [done|].
    intros Hr p [->|Hp]%elem_of_cons; [done|]. by apply IH.
Qed.

Lemma insert_by_len_perm (x : string) (l : list string) :
  insert_by_len x l ≡ₚ x :: l.
Proof.
  induction l as [|y r IH]; simpl; [done|].
  destruct (String.length y <? String.length x); [done|].
  rewrite IH. apply Permutation_swap.
Qed.

Lemma insert_by_len_sorted (x : string) (l : list string) :
  StronglySorted longer_first l →
  StronglySorted longer_first (insert_by_len x l).
Proof.
  induction 1 as [|y r Hr IH Hy]; simpl.
  - repeat constructor.
  - destruct (String.length y <? String.length x) eqn:Hlt.
    + apply Nat.ltb_lt in Hlt. constructor; [by constructor|].
      constructor; [unfold longer_first; lia|].
      eapply Forall_impl; [exact Hy|]. unfold longer_first. intros; simpl in *; lia.
    + apply Nat.ltb_ge in Hlt. constructor; [done|].
      rewrite insert_by_len_perm. constructor; [done|done].
Qed.

Lemma sorted_by_len_desc_spec (keys : list string) :
  sorted_by_len_desc keys ≡ₚ keys
  ∧ StronglySorted longer_first (sorted_by_len_desc keys).
Proof.
  unfold sorted_by_len_desc.
  assert (∀ acc, StronglySorted longer_first acc →
     fold_left (λ acc x, insert_by_len x acc) keys acc ≡ₚ acc ++ keys
     ∧ StronglySorted longer_first
         (fold_left (λ acc x, insert_by_len x acc) keys acc)) as H.
  { induction keys as [|k keys IH]; intros acc Hacc; simpl.
    - by rewrite app_nil_r.
    - destruct (IH (insert_by_len k acc)) as [Hp Hs].
      { by apply insert_by_len_sorted. }
      split; [|done]. rewrite Hp, insert_by_len_perm.
      simpl. apply Permutation_middle. }
  destruct (H []) as [Hp Hs]; [constructor|]. done.
Qed.


Lemma elem_of_compile_alternation (keys : list string) (p : string) :
  keys ≠ [] → p ∈ compile_alternation keys ↔ p ∈ keys.
Proof.
  intros Hne. unfold compile_alternation.
  destruct (sorted_by_len_desc_spec keys) as [Hp _].
  destruct (sorted_by_len_desc keys) as [|a alts].
  - by apply Permutation_nil in Hp.
  - by rewrite Hp.
Qed.


Lemma sdrop_cons (n : nat) (c : ascii) (r : string) :
  sdrop (S n) (String c r) = sdrop n r.
Proof. done. Qed.

(** What the scan reports is what a match attempt at that offset finds. *)
Lemma scan_sound (alts : list string) (s : string) :
  ∀ pos skip j t,
    (j, t) ∈ scan alts pos skip s →
    ∃ q, pos ≤ j
      ∧ match_at alts (sdrop (j - pos) s) = Some q
      ∧ t = substring 0 (String.length q) (sdrop (j - pos) s).
Proof.
  induction s as [|c r IH]; intros pos skip j t; simpl.
  - destruct skip; [|by intros ?%elem_of_nil].
    destruct (match_at alts EmptyString) as [q|] eqn:Hq;
      [|by intros ?%elem_of_nil].
    intros [= -> ->]%list_elem_of_singleton. exists q.
    rewrite Nat.sub_diag. simpl. rewrite Hq.
    split; [done|]. split; [done|]. by destruct (String.length q).
  - assert (∀ k, (j, t) ∈ scan alts (S pos) k r →
        ∃ q, pos ≤ j
          ∧ match_at alts (sdrop (j - pos) (String c r)) = Some q
          ∧ t = substring 0 (String.length q) (sdrop (j - pos) (String c r)))
      as Hrest.
    { intros k (q & Hj & Hq & Ht)%IH. exists q.
      replace (j - pos) with (S (j - S pos)) by lia.
      rewrite sdrop_cons. split; [lia|done]. }
    destruct skip as [|k]; [|apply Hrest].
    destruct (match_at alts (String c r)) as [q|] eqn:Hq; [|apply Hrest].
    intros [[= -> ->]|Hin]%elem_of_cons; [|by eapply Hrest].
    exists q. rewrite Nat.sub_diag. simpl sdrop. by rewrite Hq.
Qed.

Lemma finditer_sound (alts : list string) (w : string) (j : nat) (t : string) :
  (j, t) ∈ finditer alts w →
  ∃ q, match_at alts (sdrop j w) = Some q
    ∧ t = substring 0 (String.length q) (sdrop j w).
Proof.
  intros (q & _ & Hq & Ht)%scan_sound. rewrite Nat.sub_0_r in *. eauto.
Qed.

(** Every offset at which some alternative matches lies within a reported
    match, provided no alternative is empty. *)
Lemma scan_cover (alts : list string) (s : string) :
  (∀ q, q ∈ alts → q ≠ EmptyString) →
  ∀ pos skip i p,
    skip ≤ i → p ∈ alts → imatch p (sdrop i s) = true →
    ∃ j t, (j, t) ∈ scan alts pos skip s
      ∧ j ≤ pos + i < j + String.length t.
Proof.
  intros Hne. induction s as [|c r IH]; intros pos skip i p Hi Hp Hm.
  - exfalso. destruct i; simpl in Hm; destruct p; try done; by eapply Hne.
  - simpl. destruct skip as [|k].
    + destruct (match_at alts (String c r)) as [q|] eqn:Hq.
      * destruct (match_at_Some _ _ _ Hq) as [Hqin Hqm].
        destruct (imatch_substring _ _ Hqm) as [Hlen _].
        assert (String.length q ≠ 0) as Hq0.
        { specialize (Hne q Hqin). by destruct q. }
        destruct (decide (i < String.length q)) as [Hlt|Hge].
        -- exists pos, (substring 0 (String.length q) (String c r)).
           split; [by left|]. rewrite Hlen. lia.
        -- destruct i as [|i]; [lia|]. rewrite sdrop_cons in Hm.
           destruct (IH (S pos) (String.length q - 1) i p) as (j & t & Hin & Hj);
             [lia|done|done|].
           exists j, t. split; [by right|lia].
      * destruct i as [|i].
        { simpl in Hm. by rewrite (match_at_None _ _ Hq p Hp) in Hm. }
        rewrite sdrop_cons in Hm.
        destruct (IH (S pos) 0 i p) as (j & t & Hin & Hj); [lia|done|done|].
        exists j, t. split; [done|lia].
    + destruct i as [|i]; [lia|]. rewrite sdrop_cons in Hm.
      destruct (IH (S pos) k i p) as (j & t & Hin & Hj); [lia|done|done|].
      exists j, t. split; [done|lia].
Qed.

Lemma elem_of_sorted_set (xs : list string) (x : string) :
  x ∈ sorted_set xs ↔ x ∈ xs.
Proof.
  unfold sorted_set. by rewrite merge_sort_Permutation, elem_of_remove_dups.
Qed.

Lemma sorted_set_sorted (xs : list string) :
  StronglySorted String.le (sorted_set xs) ∧ NoDup (sorted_set xs).
Proof.
  unfold sorted_set. split.
  - apply (StronglySorted_merge_sort _).
  - rewrite merge_sort_Permutation. apply NoDup_remove_dups.
Qed.

Lemma elem_of_matches_with (alts : list string) (w p : string) :
  p ∈ matches_with alts w ↔ ∃ j t, (j, t) ∈ finditer alts w ∧ p = lower t.
Proof.
  unfold matches_with. rewrite elem_of_sorted_set, list_elem_of_In, in_map_iff.
  split.
  - intros ([j t] & <- & Hin%list_elem_of_In). eauto.
  - intros (j & t & Hin%list_elem_of_In & ->). by exists (j, t).
Qed.

Lemma imatch_comparable (p q s : string) :
  imatch p s = true → imatch q s = true →
  imatch p q = true ∨ imatch q p = true.
Proof.
  revert q s. induction p as [|a p IH]; intros q s; [by left|].
  destruct q as [|b q]; [by right|].
  destruct s as [|c s]; [done|]. simpl.
  intros [Ha Hp]%andb_true_iff [Hb Hq]%andb_true_iff.
  apply ichar_eq_lower in Ha, Hb.
  assert (ichar_eq a b = true) as -> by (apply ichar_eq_lower; congruence).
  assert (ichar_eq b a = true) as -> by (apply ichar_eq_lower; congruence).
  simpl. by apply (IH q s).
Qed.

(** The lexicon of the program: no key is empty, every key is in lower
    case, and no key matches at the start of another one. *)
Lemma COMMON_ROOTS_keys :
  (∀ p, p ∈ COMMON_ROOTS → p ≠ EmptyString ∧ lower p = p)
  ∧ (∀ p q, p ∈ COMMON_ROOTS → q ∈ COMMON_ROOTS → imatch p q = true → p = q).
Proof.
  split.
  - assert (forallb (λ p, nonempty p && String.eqb (lower p) p) COMMON_ROOTS
            = true) as H by (vm_compute; reflexivity).
    rewrite forallb_forall in H. intros p Hp%list_elem_of_In.
    apply H in Hp. apply andb_true_iff in Hp as [Hn He].
    split; [by apply nonempty_true|by apply String.eqb_eq].
  - assert (forallb (λ p, forallb (λ q, implb (imatch p q) (String.eqb p q))
                            COMMON_ROOTS) COMMON_ROOTS = true) as H
      by (vm_compute; reflexivity).
    rewrite forallb_forall in H.
    intros p q Hp%list_elem_of_In Hq%list_elem_of_In Hm.
    specialize (H p Hp). rewrite forallb_forall in H. specialize (H q Hq).
    rewrite Hm in H. by apply String.eqb_eq.
Qed.

Lemma ROOT_REGEX_elem (p : string) : p ∈ ROOT_REGEX ↔ p ∈ COMMON_ROOTS.
Proof. by apply elem_of_compile_alternation. Qed.

(** A match the scan of [ROOT_REGEX] reports is an occurrence of a key, and
    its lower-cased text is that key. *)
Lemma finditer_ROOT_REGEX (w : string) (j : nat) (t : string) :
  (j, t) ∈ finditer ROOT_REGEX w →
  lower t ∈ COMMON_ROOTS ∧ occurs_at (lower t) w j = true
  ∧ String.length t = String.length (lower t).
Proof.
  intros (q & Hq & ->)%finditer_sound.
  apply match_at_Some in Hq as [Hin Hm]. apply ROOT_REGEX_elem in Hin.
  destruct (imatch_substring _ _ Hm) as [Hlen Hlow].
  destruct (proj1 COMMON_ROOTS_keys q Hin) as [_ Hq].
  rewrite Hlow, Hq, Hlen. done.
Qed.

(** C3 (amended).  The root hints are the sorted, duplicate-free list of
    the lower-cased keys that the left-to-right scan matches.  Every hint
    is a key of the lexicon that occurs in the word, ignoring case.  Every
    occurrence of a key in the word is either reported, or it starts
    strictly inside a match reported from an earlier offset: the scan
    resumes behind each match, so an occurrence that overlaps the match
    before it is passed over, while adjacent occurrences are found. *)
Theorem matches_are_scan_hits (w : string) :
  (StronglySorted String.le (matches w) ∧ NoDup (matches w))
  ∧ (∀ p, p ∈ matches w →
       p ∈ COMMON_ROOTS ∧ ∃ i, occurs_at p w i = true)
  ∧ (∀ p i, p ∈ COMMON_ROOTS → occurs_at p w i = true →
       (p ∈ matches w ∧ ∃ t, (i, t) ∈ finditer ROOT_REGEX w ∧ lower t = p)
       ∨ (∃ j t, (j, t) ∈ finditer ROOT_REGEX w
            ∧ j < i < j + String.length t)).
Proof.
  split; [apply sorted_set_sorted|]. split.
  - intros p (j & t & Hin & ->)%elem_of_matches_with.
    destruct (finditer_ROOT_REGEX _ _ _ Hin) as (? & ? & _). eauto.
  - intros p i Hp Hocc.
    destruct (scan_cover ROOT_REGEX w) with (pos := 0) (skip := 0) (i := i)
      (p := p) as (j & t & Hin & Hj); [|lia|by apply ROOT_REGEX_elem|done|].
    { intros q Hq%ROOT_REGEX_elem. by apply COMMON_ROOTS_keys. }
    simpl in Hj. destruct (decide (j = i)) as [->|Hne].
    + left. destruct (finditer_ROOT_REGEX _ _ _ Hin) as (Hq & Hqocc & _).
      assert (lower t = p) as Ht.
      { destruct (imatch_comparable _ _ _ Hqocc Hocc) as [H|H].
        - by apply COMMON_ROOTS_keys.
        - symmetry. by apply COMMON_ROOTS_keys. }
      split; [|by exists t].
      apply elem_of_matches_with. by exists i, t.
    + right. exists j, t. split; [done|lia].
Qed.

Lemma matches_are_scan_hits_witness :
  ("bio" ∈ COMMON_ROOTS ∧ ∃ i, occurs_at "bio" "biology" i = true)
  ∧ (("ology" ∈ matches "biology"
      ∧ ∃ t, (2, t) ∈ finditer ROOT_REGEX "biology" ∧ lower t = "ology")
     ∨ (∃ j t, (j, t) ∈ finditer ROOT_REGEX "biology"
          ∧ j < 2 < j + String.length t)).
Proof.
  destruct (matches_are_scan_hits "biology") as (_ & Hsound & Hcover).
  split.
  - apply (Hsound "bio"). apply list_elem_of_In. vm_compute. left. reflexivity.
  - apply (Hcover "ology" 2); [|reflexivity].
    apply list_elem_of_In. vm_compute. do 45 right. left. reflexivity.
Defined.

(** C3 as stated fails: "ology" is a key and occurs in "biology", yet the
    only hint is "bio", whose match covers the first letter of "ology". *)
Lemma matches_counterexample :
  "ology" ∈ COMMON_ROOTS
  ∧ occurs_at "ology" "biology" 2 = true
  ∧ finditer ROOT_REGEX "biology" = [(0, "bio")]
  ∧ matches "biology" = ["bio"]
  ∧ "ology" ∉ matches "biology".
Proof.
  assert (matches "biology" = ["bio"]) as H by (vm_compute; reflexivity).
  split; [|split; [|split; [|split]]]; try (vm_compute; reflexivity).
  - apply list_elem_of_In. vm_compute. do 45 right. by left.
  - rewrite H. by intros [=]%list_elem_of_singleton.
Qed.



(** ** Dataset storage: reading back what was written *)


























Example csv_text_sample_rows :
  csv_text sample_rows
  = "word,etymology,notes" +:+ CRLF
    +:+ "prestigious," +:+ String QUOTE "From French, "
    +:+ String QUOTE (String QUOTE "prestigieux")
    +:+ String QUOTE (String QUOTE (String QUOTE ","))
    +:+ CRLF
    +:+ "co-op," +:+ String QUOTE "x" +:+ newline +:+ "y"
    +:+ String QUOTE ",grade8" +:+ CRLF.
Proof. vm_compute. reflexivity. Qed.

(** C8, at the input where the loader breaks the invariant of [Entry].
    The word of a record is tested for emptiness before it is trimmed: a
    record whose word consists of white space passes the test and is kept
    with the empty word.  (A missing file does yield the empty list, and a
    record without a word is passed over.) *)
Theorem loader_keeps_blank_word :
  load_db_from_path {[ "etymology_db.csv" := blank_word_file ]}
    "etymology_db.csv"
  = Ok [ {| word := EmptyString; etymology := "x"; notes := "y" |} ]
  ∧ load_db_from_path ∅ "etymology_db.csv" = Ok []
  ∧ load_text ("word,etymology,notes" +:+ CRLF +:+ ",x,y" +:+ CRLF) = Ok [].
Proof. split; [|split]; vm_compute; reflexivity. Qed.

(** A record shorter than the header has [None] in the fields it lacks,
    and the loader ends in the [AttributeError] of [None.strip()]. *)
Example loader_short_record :
  load_text ("word,etymology,notes" +:+ CRLF +:+ "tea" +:+ CRLF)
  = Raise AttributeError.
Proof. vm_compute. reflexivity. Qed.

(** * Further properties *)

(** ** Normalisation *)

Lemma keeps_not_space (c : ascii) : keeps c = true → isspace c = false.
Proof. destruct c as [[] [] [] [] [] [] [] []]; by vm_compute. Qed.

Lemma isspace_char_lower (c : ascii) : isspace (char_lower c) = isspace c.
Proof. destruct c as [[] [] [] [] [] [] [] []]; by vm_compute. Qed.

Lemma sforall_sfilter (f : ascii → bool) (s : string) :
  sforall f (sfilter f s) = true.
Proof.
  induction s as [|c s IH]; [done|]. simpl.
  destruct (f c) eqn:Hc; [|done]. simpl. by rewrite Hc.
Qed.

Lemma sfilter_id (f : ascii → bool) (s : string) :
  sforall f s = true → sfilter f s = s.
Proof.
  induction s as [|c s IH]; [done|]. simpl.
  intros [-> Hs]%andb_true_iff. by rewrite IH.
Qed.

Lemma sfilter_empty (f : ascii → bool) (s : string) :
  sfilter f s = EmptyString ↔ sforall (λ c, negb (f c)) s = true.
Proof.
  induction s as [|c s IH]; [done|]. simpl.
  destruct (f c); simpl; [split; done|done].
Qed.

(** A text without white space is left as it is by [strip]. *)
Lemma rstrip_no_space (s : string) :
  sforall (λ c, negb (isspace c)) s = true → rstrip s = s.
Proof.
  induction s as [|c s IH]; [done|]. simpl.
  intros [Hc Hs]%andb_true_iff. rewrite IH by done.
  apply negb_true_iff in Hc. rewrite Hc. by destruct s.
Qed.

Lemma strip_no_space (s : string) :
  sforall (λ c, negb (isspace c)) s = true → strip s = s.
Proof.
  intros Hs. unfold strip.
  assert (lstrip s = s) as ->; [|by apply rstrip_no_space].
  destruct s as [|c s]; [done|]. simpl in *.
  apply andb_true_iff in Hs as [Hc _]. apply negb_true_iff in Hc.
  by rewrite Hc.
Qed.

Lemma sforall_impl (f g : ascii → bool) (s : string) :
  (∀ c, f c = true → g c = true) → sforall f s = true → sforall g s = true.
Proof.
  intros Hfg. induction s as [|c s IH]; [done|]. simpl.
  intros [Hc Hs]%andb_true_iff. by rewrite (Hfg c Hc), IH.
Qed.

Lemma clean_word_sfilter (w : string) : clean_word w = sfilter keeps w.
Proof.
  unfold clean_word. apply strip_no_space.
  apply (sforall_impl keeps); [|apply sforall_sfilter].
  intros c Hc. by rewrite (keeps_not_space c Hc).
Qed.

(** X1.  [clean_word] keeps exactly the letters A-Z and a-z, the hyphens
    and the apostrophes of its argument, in their order: the [strip] at
    its end never removes anything, the result holds no other character,
    and cleaning a cleaned word changes nothing. *)
Theorem clean_word_keeps_letters (w : string) :
  clean_word w = sfilter keeps w
  ∧ sforall keeps (clean_word w) = true
  ∧ clean_word (clean_word w) = clean_word w.
Proof.
  split; [apply clean_word_sfilter|]. split.
  - rewrite clean_word_sfilter. apply sforall_sfilter.
  - rewrite !clean_word_sfilter. apply sfilter_id, sforall_sfilter.
Qed.

(** [strip] and [lower] commute, and [strip] is idempotent. *)
Lemma lstrip_lower (s : string) : lstrip (lower s) = lower (lstrip s).
Proof.
  unfold lower. induction s as [|c s IH]; [done|]. simpl.
  rewrite isspace_char_lower. by destruct (isspace c).
Qed.

Lemma rstrip_lower (s : string) : rstrip (lower s) = lower (rstrip s).
Proof.
  unfold lower. induction s as [|c s IH]; [done|]. simpl.
  rewrite IH, isspace_char_lower.
  destruct (rstrip s); simpl; [by destruct (isspace c)|done].
Qed.

Lemma strip_lower (s : string) : strip (lower s) = lower (strip s).
Proof. unfold strip. by rewrite lstrip_lower, rstrip_lower. Qed.

Lemma rstrip_idemp (s : string) : rstrip (rstrip s) = rstrip s.
Proof.
  induction s as [|c s IH]; [done|]. simpl.
  destruct (rstrip s) as [|d r] eqn:Hr.
  - destruct (isspace c) eqn:Hc; [done|]. simpl. by rewrite Hc.
  - simpl. simpl in IH. by rewrite IH.
Qed.

Lemma lstrip_head (s : string) :
  lstrip s = EmptyString
  ∨ ∃ c r, lstrip s = String c r ∧ isspace c = false.
Proof.
  induction s as [|c s IH]; [by left|]. simpl.
  destruct (isspace c) eqn:Hc; [done|]. right. by exists c, s.
Qed.

Lemma rstrip_head (c : ascii) (r : string) :
  isspace c = false → ∃ r', rstrip (String c r) = String c r'.
Proof.
  intros Hc. simpl. destruct (rstrip r); rewrite ?Hc; by eexists.
Qed.

Lemma strip_idemp (s : string) : strip (strip s) = strip s.
Proof.
  unfold strip. destruct (lstrip_head s) as [->|(c & r & -> & Hc)]; [done|].
  destruct (rstrip_head c r Hc) as [r' Hr]. rewrite Hr.
  simpl lstrip. rewrite Hc, <- Hr. apply rstrip_idemp.
Qed.

(** ** The remote lookup: what is sent and what comes back *)

Lemma get_json_log (req : Request) (net : Oracle) (log : list Request) :
  ∃ r, get_json req net log = (r, log ++ [req]).
Proof.
  unfold get_json, http_get, mbind, Net_bind, mret, Net_ret, raise.
  destruct (net log req) as [|[] [data|]]; by eexists.
Qed.

(** Each call of the service sends one request, whatever the reply. *)
Lemma wiktionary_parse_log (title : Json) (net : Oracle) (log : list Request) :
  ∃ html, wiktionary_parse title net log = (Ok html, log ++ [ParsePage title]).
Proof.
  unfold wiktionary_parse, try_except, mbind, Net_bind, lift.
  destruct (get_json_log (ParsePage title) net log) as [[data|e] ->];
    [|by eexists].
  destruct (py_get data "parse") as [parse|e]; [|by eexists].
  destruct (py_get (py_or parse (JDict [])) "text"); by eexists.
Qed.

Lemma wiktionary_opensearch_log (w : string) (net : Oracle)
    (log : list Request) :
  ∃ title,
    wiktionary_opensearch w net log = (Ok title, log ++ [OpenSearch w]).
Proof.
  unfold wiktionary_opensearch, try_except, mbind, Net_bind, lift, mret,
    Net_ret.
  destruct (get_json_log (OpenSearch w) net log) as [[data|e] ->];
    [|by eexists].
  destruct (py_iter (titles_of data)) as [ts|e]; [|by eexists].
  destruct (first_equal (lower w) ts) as [[t|]|e]; [by eexists| |by eexists].
  destruct (truthy (titles_of data)); [|by eexists].
  destruct (py_first (titles_of data)); by eexists.
Qed.



Lemma first_equal_find (low : string) (titles : list string) :
  first_equal low (map JStr titles)
  = Ok (JStr <$> find (λ t, bool_decide (lower t = low)) titles).
Proof.
  induction titles as [|t titles IH]; [done|]. simpl.
  case_decide as Ht.
  - by rewrite bool_decide_eq_true_2.
  - by rewrite bool_decide_eq_false_2.
Qed.

(** X7.  When the title search is answered with a list of titles, the
    title chosen is the first one that equals the word up to case; when
    there is none it is the first title of the list, and [None] for an
    empty list.  One request is sent. *)
Theorem search_picks_title (w : string) (net : Oracle) (log : list Request)
    (q : Json) (titles : list string) (more : list Json) :
  net log (OpenSearch w)
  = HttpReply true (Some (JList (q :: JList (map JStr titles) :: more))) →
  wiktionary_opensearch w net log
  = (Ok (pick_title w titles), log ++ [OpenSearch w]).
Proof.
  intros Hreply.
  assert (get_json (OpenSearch w) net log
          = (Ok (JList (q :: JList (map JStr titles) :: more)),
             log ++ [OpenSearch w])) as Hget.
  { unfold get_json, http_get, mbind, Net_bind. by rewrite Hreply. }
  unfold wiktionary_opensearch, try_except, mbind, Net_bind, lift, mret,
    Net_ret.
  rewrite Hget. cbn [titles_of py_iter]. rewrite first_equal_find.
  unfold pick_title.
  destruct (find _ titles) as [t|]; [done|]. simpl.
  by destruct titles.
Qed.

Lemma search_picks_title_witness :
  wiktionary_opensearch "Tea" (λ _ _, search_reply) []
  = (Ok (JStr "TEA"), [OpenSearch "Tea"]).
Proof.
  apply (search_picks_title "Tea" (λ _ _, search_reply) [] (JStr "tea")
           ["Teal"; "TEA"; "tea"] []).
  reflexivity.
Defined.

Lemma grows_bind {A B} (m : Net A) (k : A → Net B) :
  grows m → (∀ a, grows (k a)) → grows (m ≫= k).
Proof.
  intros Hm Hk net log. unfold mbind, Net_bind.
  destruct (Hm net log) as ([a|e] & sent & ->).
  - destruct (Hk a net (log ++ sent)) as (r & sent' & ->).
    exists r, (sent ++ sent'). by rewrite app_assoc.
  - by exists (Raise e), sent.
Qed.

Lemma grows_mret {A} (a : A) : grows (mret a).
Proof. intros net log. exists (Ok a), []. by rewrite app_nil_r. Qed.

Lemma grows_wiktionary_parse (title : Json) : grows (wiktionary_parse title).
Proof.
  intros net log. destruct (wiktionary_parse_log title net log) as [h ->].
  by eexists _, _.
Qed.

Lemma grows_wiktionary_opensearch (w : string) :
  grows (wiktionary_opensearch w).
Proof.
  intros net log. destruct (wiktionary_opensearch_log w net log) as [t ->].
  by eexists _, _.
Qed.

Lemma grows_try_candidates (cands : list string) :
  grows (try_candidates cands).
Proof.
  induction cands as [|cand cands IH]; [apply grows_mret|].
  apply grows_bind; [apply grows_wiktionary_parse|].
  intros html. destruct (truthy html); [apply grows_mret|done].
Qed.

Lemma try_candidates_first (cand : string) (cands : list string)
    (net : Oracle) (log : list Request) :
  ∃ r sent,
    try_candidates (cand :: cands) net log
    = (r, log ++ ParsePage (JStr cand) :: sent).
Proof.
  cbn [try_candidates]. unfold mbind, Net_bind.
  destruct (wiktionary_parse_log (JStr cand) net log) as [h ->].
  assert (grows (if truthy h
                 then mret (Some (h, JStr cand))
                 else try_candidates cands)) as Hrest.
  { destruct (truthy h); [apply grows_mret|apply grows_try_candidates]. }
  destruct (Hrest net (log ++ [ParsePage (JStr cand)])) as (r & sent & Hr).
  exists r, sent. rewrite <- app_assoc in Hr. simpl in Hr. rewrite <- Hr.
  by destruct (truthy h).
Qed.

(** The page of the word in lower case is asked for first. *)
Lemma fetch_first_request (w : string) (net : Oracle) (log : list Request) :
  ∃ r sent,
    fetch_etymology_html w net log
    = (r, log ++ ParsePage (JStr (lower w)) :: sent).
Proof.
  unfold fetch_etymology_html. unfold mbind at 1. unfold Net_bind at 1.
  destruct (try_candidates_first (lower w) [capitalize w; w] net log)
    as ([found|e] & sent & ->); [|by eexists _, _].
  assert (grows
    match found with
    | Some r => mret r
    | None =>
        title ← wiktionary_opensearch w;
        if truthy title then
          html ← wiktionary_parse title;
          if truthy html then mret (html, title) else mret (JNull, JNull)
        else mret (JNull, JNull)
    end) as Hrest.
  { destruct found as [r|]; [apply grows_mret|].
    apply grows_bind; [apply grows_wiktionary_opensearch|].
    intros title. destruct (truthy title); [|apply grows_mret].
    apply grows_bind; [apply grows_wiktionary_parse|].
    intros html. destruct (truthy html); apply grows_mret. }
  destruct (Hrest net (log ++ ParsePage (JStr (lower w)) :: sent))
    as (r & sent' & Hr).
  exists r, (sent ++ sent'). rewrite <- app_assoc in Hr. simpl in Hr.
  rewrite <- Hr. by destruct found.
Qed.

(** ** The handler: its outcomes and its requests *)

Section Handler.

Variable parse_html : string → list Node.

(** Whatever the service does, the branch "Not in local database." shows
    the root hints of the word. *)
Lemma not_local_hints (net : Oracle) (w : string) (online : bool) :
  hints_of (not_local parse_html net w online).1 = Some (matches w).
Proof.
  unfold not_local. destruct online; [|done].
  destruct (fetch_etymology_html w net []) as [[[html title]|e] log] eqn:Hf.
  - destruct (truthy html); [|done]. simpl.
    apply fetch_title_str in Hf as [->|[t ->]]; [by destruct html|].
    unfold title_differs. destruct (truthy (JStr t)); by destruct html.
  - destruct (fetch_etymology_html_ok w net []) as (? & ? & ? & ?).
    congruence.
Qed.

Lemma not_local_requests (net : Oracle) (w : string) :
  (not_local parse_html net w false).2 = []
  ∧ ∃ sent,
      (not_local parse_html net w true).2
      = ParsePage (JStr (lower w)) :: sent.
Proof.
  split; [done|]. unfold not_local.
  destruct (fetch_first_request w net []) as (r & sent & ->).
  exists sent. destruct r as [[html title]|e]; [|done].
  destruct (truthy html); [|done]. simpl.
  destruct (title_differs title w); [|done]. by destruct html.
Qed.

Lemma clean_word_empty (raw : string) :
  clean_word raw = EmptyString ↔ sforall (λ c, negb (keeps c)) raw = true.
Proof. rewrite clean_word_sfilter. apply sfilter_empty. Qed.

(** X2.  The handler answers "Please enter letters only." exactly when
    the input holds no letter A-Z or a-z, no hyphen and no apostrophe; it
    then sends no request. *)
Theorem invalid_input_iff_no_letter (rows : list Entry) (net : Oracle)
    (raw : string) (online : bool) :
  ((resolve parse_html rows net raw online).1 = InvalidInput
   ↔ sforall (λ c, negb (keeps c)) raw = true)
  ∧ ((resolve parse_html rows net raw online).1 = InvalidInput →
     (resolve parse_html rows net raw online).2 = []).
Proof.
  rewrite <- clean_word_empty. unfold resolve.
  assert (∀ v, (not_local parse_html net v online).1 ≠ InvalidInput) as Hnl.
  { intros v Hv. pose proof (not_local_hints net v online) as Hh.
    by rewrite Hv in Hh. }
  destruct (nonempty (clean_word raw)) eqn:Hw; simpl.
  - apply nonempty_true in Hw.
    destruct (local_map rows !! _) as [row|].
    + destruct (nonempty (etymology row)); simpl.
      * split; [split; done|done].
      * split; [split; [by intros ?%Hnl|done]|by intros ?%Hnl].
    + split; [split; [by intros ?%Hnl|done]|by intros ?%Hnl].
  - apply nonempty_false in Hw. done.
Qed.

(** X13.  For a word that has no etymology in the dataset, the root hints
    of the normalised word are part of what the handler shows in every
    case: with the online lookup off or on, and whatever the service
    answers. *)
Theorem hints_always_shown (rows : list Entry) (net : Oracle) (raw : string)
    (online : bool) :
  clean_word raw ≠ EmptyString →
  (∀ r, r ∈ rows → lower (word r) = lower (clean_word raw) →
        etymology r = EmptyString) →
  hints_of (resolve parse_html rows net raw online).1
  = Some (matches (clean_word raw)).
Proof.
  intros Hw Hrows. rewrite resolve_not_found by done.
  apply not_local_hints.
Qed.

(** X15.  The handler calls the service exactly when the online lookup is
    on, the normalised word is not empty and the lookup map holds no entry
    with an etymology for it.  The first request then asks for the page of
    the normalised word in lower case; in every other case no request is
    sent. *)
Theorem requests_only_when_needed (rows : list Entry) (net : Oracle)
    (raw : string) (online : bool) :
  let needed :=
    online = true ∧ clean_word raw ≠ EmptyString
    ∧ ∀ e, local_map rows !! lower (clean_word raw) = Some e →
           etymology e = EmptyString in
  (needed →
   ∃ sent, (resolve parse_html rows net raw online).2
           = ParsePage (JStr (lower (clean_word raw))) :: sent)
  ∧ (¬ needed → (resolve parse_html rows net raw online).2 = []).
Proof.
  intros needed. subst needed. unfold resolve. split.
  - intros (-> & Hw & Hrow). apply nonempty_true in Hw. rewrite Hw. simpl.
    destruct (local_map rows !! _) as [row|];
      [|apply not_local_requests].
    rewrite (Hrow row eq_refl). apply not_local_requests.
  - intros Hnot.
    destruct (nonempty (clean_word raw)) eqn:Hw; simpl; [|done].
    apply nonempty_true in Hw.
    destruct (local_map rows !! _) as [row|] eqn:Hrow.
    + destruct (nonempty (etymology row)) eqn:Het; [done|].
      apply nonempty_false in Het.
      destruct online; [|apply not_local_requests].
      exfalso. apply Hnot. split; [done|]. split; [done|].
      by intros e [= <-].
    + destruct online; [|apply not_local_requests].
      exfalso. apply Hnot. by split.
Qed.

End Handler.

Lemma invalid_input_iff_no_letter_witness :
  (resolve no_parser [tea_first] serving " 42 + 7 " true).2 = [].
Proof.
  destruct (invalid_input_iff_no_letter no_parser [tea_first] serving
              " 42 + 7 " true) as [Hiff Hlog].
  apply Hlog. apply Hiff. reflexivity.
Defined.

Lemma hints_always_shown_witness :
  hints_of (resolve no_parser [tea_first] serving "Biology!" true).1
  = Some ["bio"].
Proof.
  apply (hints_always_shown no_parser [tea_first] serving "Biology!" true).
  - discriminate.
  - intros r ->%list_elem_of_singleton. discriminate.
Defined.

Lemma requests_only_when_needed_witness :
  (∃ sent, (resolve no_parser [tea_first] serving "Biology!" true).2
           = ParsePage (JStr "biology") :: sent)
  ∧ (resolve no_parser [tea_first] serving "Tea" true).2 = [].
Proof.
  split.
  - apply (requests_only_when_needed no_parser [tea_first] serving
             "Biology!" true).
    split; [reflexivity|]. split; [discriminate|]. by vm_compute.
  - apply (requests_only_when_needed no_parser [tea_first] serving
             "Tea" true).
    intros (_ & _ & H). specialize (H tea_first eq_refl). discriminate.
Defined.

(** ** RootMatcher: case and emptiness *)

Lemma imatch_lower_eq (p s s' : string) :
  lower s = lower s' → imatch p s = imatch p s'.
Proof.
  unfold lower. revert s s'.
  induction p as [|a p IH]; intros [|c s] [|c' s']; simpl; try done.
  intros [= Hc Hs]. unfold ichar_eq. by rewrite Hc, (IH s s' Hs).
Qed.

Lemma match_at_lower_eq (alts : list string) (s s' : string) :
  lower s = lower s' → match_at alts s = match_at alts s'.
Proof.
  intros Hs. induction alts as [|a alts IH]; [done|]. simpl.
  by rewrite (imatch_lower_eq a s s' Hs), IH.
Qed.

Lemma substring_lower_eq (n : nat) (s s' : string) :
  lower s = lower s' →
  lower (substring 0 n s) = lower (substring 0 n s').
Proof.
  unfold lower. revert s s'.
  induction n as [|n IH]; intros [|c s] [|c' s']; simpl; try done.
  intros [= Hc Hs]. by rewrite Hc, (IH s s' Hs).
Qed.

(** The scan of two texts that are equal up to case reports matches at
    the same offsets, equal up to case. *)
Lemma scan_lower_eq (alts : list string) (s : string) :
  ∀ s' pos skip,
    lower s = lower s' →
    map (λ m, (m.1, lower m.2)) (scan alts pos skip s)
    = map (λ m, (m.1, lower m.2)) (scan alts pos skip s').
Proof.
  induction s as [|c r IH]; intros [|c' r'] pos skip Hs; try done.
  assert (lower r = lower r') as Hr.
  { unfold lower in *. simpl in Hs. by injection Hs. }
  cbn [scan]. destruct skip as [|k]; [|by apply IH].
  rewrite (match_at_lower_eq alts _ _ Hs).
  destruct (match_at alts (String c' r')) as [q|]; [|by apply IH].
  cbn [map fst snd]. f_equal; [|by apply IH].
  f_equal. by apply substring_lower_eq.
Qed.

(** X3.  Root matching ignores case: two words that are equal up to case
    have their matches at the same offsets and get the same hints. *)
Theorem matches_ignore_case (w w' : string) :
  lower w = lower w' →
  matches w = matches w'
  ∧ map fst (finditer ROOT_REGEX w) = map fst (finditer ROOT_REGEX w').
Proof.
  intros Hw.
  pose proof (scan_lower_eq ROOT_REGEX w w' 0 0 Hw) as Hscan.
  fold (finditer ROOT_REGEX w) in Hscan.
  fold (finditer ROOT_REGEX w') in Hscan.
  split.
  - unfold matches, matches_with. f_equal.
    apply (f_equal (map snd)) in Hscan.
    by rewrite !map_map in Hscan.
  - apply (f_equal (map fst)) in Hscan.
    by rewrite !map_map in Hscan.
Qed.

Lemma matches_ignore_case_witness :
  matches "PREVIEW" = matches "preview"
  ∧ map fst (finditer ROOT_REGEX "PREVIEW")
    = map fst (finditer ROOT_REGEX "preview").
Proof. apply (matches_ignore_case "PREVIEW" "preview"). reflexivity. Defined.

(** X4.  The handler has no root hint to show ("No obvious roots found")
    exactly when no key of the lexicon occurs in the word, ignoring
    case. *)
Theorem no_hints_iff_no_key (w : string) :
  matches w = []
  ↔ ∀ p i, p ∈ COMMON_ROOTS → occurs_at p w i = false.
Proof.
  split.
  - intros Hnone p i Hp. destruct (occurs_at p w i) eqn:Hocc; [|done].
    destruct (scan_cover ROOT_REGEX w) with (pos := 0) (skip := 0) (i := i)
      (p := p) as (j & t & Hin & _); [|lia|by apply ROOT_REGEX_elem|done|].
    { intros q Hq%ROOT_REGEX_elem. by apply COMMON_ROOTS_keys. }
    assert (lower t ∈ matches w) as Hhit.
    { apply elem_of_matches_with. by exists j, t. }
    rewrite Hnone in Hhit. by apply elem_of_nil in Hhit.
  - intros Hno. destruct (matches w) as [|p hints] eqn:Hm; [done|].
    assert (p ∈ matches w) as Hp by (rewrite Hm; by left).
    apply elem_of_matches_with in Hp as (j & t & Hin & ->).
    destruct (finditer_ROOT_REGEX _ _ _ Hin) as (Hkey & Hocc & _).
    by rewrite (Hno _ j Hkey) in Hocc.
Qed.

Lemma no_hints_iff_no_key_witness : occurs_at "re" "xyz" 1 = false.
Proof.
  apply (proj1 (no_hints_iff_no_key "xyz")); [reflexivity|].
  apply list_elem_of_In. vm_compute. do 35 right. left. reflexivity.
Defined.

(** ** The guessing game and the pick list *)

Lemma check_guess_spec (s : Session) (guess : string) :
  (check_guess s guess).2 = scores guess
  ∧ rounds (check_guess s guess).1 = S (rounds s)
  ∧ score (check_guess s guess).1
    = score s + (if scores guess then 1 else 0).
Proof.
  unfold check_guess, scores.
  destruct (bool_decide _); simpl; repeat split; lia.
Qed.

Lemma play_counts (guesses : list string) :
  ∀ s,
    rounds (play s guesses) = rounds s + length guesses
    ∧ score (play s guesses)
      = score s + length (filter (λ g, scores g = true) guesses).
Proof.
  unfold play. induction guesses as [|g guesses IH]; intros s; simpl.
  - split; lia.
  - destruct (IH (check_guess s g).1) as [Hr Hs].
    destruct (check_guess_spec s g) as (_ & Hr1 & Hs1).
    rewrite Hr, Hs, Hr1, Hs1, filter_cons.
    destruct (decide (scores g = true)) as [Hg|Hg].
    + rewrite Hg. simpl. split; lia.
    + apply not_true_is_false in Hg. rewrite Hg. split; lia.
Qed.

(** X5.  After any run of guesses from a fresh session, the rounds played
    are the number of guesses, the score is the number of guesses whose
    normalised, lower-cased form is a key of the lexicon, and the score
    never exceeds the rounds. *)
Theorem score_counts_good_guesses (guesses : list string) :
  rounds (play new_session guesses) = length guesses
  ∧ score (play new_session guesses)
    = length (filter (λ g, scores g = true) guesses)
  ∧ score (play new_session guesses) ≤ rounds (play new_session guesses).
Proof.
  destruct (play_counts guesses new_session) as [Hr Hs].
  rewrite Hr, Hs. simpl. split; [done|]. split; [done|].
  apply length_filter.
Qed.

Example play_three_guesses :
  play new_session ["Pre-"; " BIO "; "tele"; "xyz"]
  = {| score := 2; rounds := 4 |}.
Proof. vm_compute. reflexivity. Qed.

(** X6.  The pick list holds, in sorted order and once each, the words of
    the entries whose notes are "grade8" up to case and surrounding white
    space. *)
Theorem grade8_tagged_words (rows : list Entry) :
  StronglySorted String.le (grade8 rows)
  ∧ NoDup (grade8 rows)
  ∧ ∀ x, x ∈ grade8 rows
         ↔ ∃ r, r ∈ rows ∧ word r = x ∧ lower (strip (notes r)) = "grade8".
Proof.
  unfold grade8.
  split; [apply sorted_set_sorted|]. split; [apply sorted_set_sorted|].
  intros x. rewrite elem_of_sorted_set, list_elem_of_In, in_map_iff.
  split.
  - intros (r & Hx & Hr%list_elem_of_In).
    apply list_elem_of_filter in Hr as [Htag Hr].
    exists r. by rewrite <- strip_lower.
  - intros (r & Hr & Hx & Htag). exists r. split; [done|].
    apply list_elem_of_In, list_elem_of_filter. by rewrite strip_lower.
Qed.

Lemma grade8_tagged_words_witness : "co-op" ∈ grade8 sample_rows.
Proof.
  apply (proj2 (proj2 (grade8_tagged_words sample_rows)) "co-op").
  exists (mkEntry "co-op" ("x" +:+ newline +:+ "y") "grade8").
  split; [|split; reflexivity].
  apply list_elem_of_In. right. left. reflexivity.
Defined.

(** ** Dataset storage: what the loader never does *)










(** ** Dataset storage: what the loader returns *)

Lemma py_strip_Ok (v : option string) (s : string) :
  py_strip v = Ok s → strip s = s.
Proof. destruct v; simpl; [|done]. intros [= <-]. apply strip_idemp. Qed.

Lemma make_entry_trimmed (r : gmap string (option string)) (e : Entry) :
  make_entry r = Ok e → trimmed e.
Proof.
  unfold make_entry, mbind, Res_bind, trimmed, trim.
  destruct (py_strip (dict_get_default r "word")) eqn:H1; [|done].
  destruct (py_strip (dict_get_default r "etymology")) eqn:H2; [|done].
  destruct (py_strip (dict_get_default r "notes")) eqn:H3; [|done].
  intros [= <-]. simpl.
  by rewrite (py_strip_Ok _ _ H1), (py_strip_Ok _ _ H2), (py_strip_Ok _ _ H3).
Qed.

Lemma load_loop_trimmed (names : list string) (rows : list (list string))
    (failed : bool) :
  ∀ out, load_loop names rows failed = Ok out → Forall trimmed out.
Proof.
  induction rows as [|row rows IH]; intros out; simpl.
  - destruct failed; [done|]. intros [= <-]. constructor.
  - destruct row as [|x row]; [apply IH|].
    destruct (has_word _); [|apply IH].
    unfold mbind, Res_bind.
    destruct (make_entry _) as [e|] eqn:He; [|done].
    destruct (load_loop names rows failed) as [es|]; [|done].
    intros [= <-]. constructor; [by eapply make_entry_trimmed|by apply IH].
Qed.

Lemma load_text_trimmed (text : string) (rows : list Entry) :
  load_text text = Ok rows → Forall trimmed rows.
Proof.
  unfold load_text. destruct (csv_reader text) as [[|names rs] failed].
  - destruct failed; [done|]. intros [= <-]. constructor.
  - apply load_loop_trimmed.
Qed.


(** X10.  Every entry the loader returns has its three fields trimmed:
    stripping any of them again changes nothing. *)
Theorem loader_returns_trimmed (fs : gmap string string) (path : string)
    (rows : list Entry) :
  load_db_from_path fs path = Ok rows →
  Forall (λ e, strip (word e) = word e ∧ strip (etymology e) = etymology e
               ∧ strip (notes e) = notes e) rows.
Proof.
  unfold load_db_from_path. intros Hload.
  assert (Forall trimmed rows) as Htrim.
  { destruct (fs !! path) as [text|].
    - by eapply load_text_trimmed.
    - injection Hload as <-. constructor. }
  eapply Forall_impl; [exact Htrim|].
  intros [w e n]. unfold trimmed, trim. simpl. by intros [= -> -> ->].
Qed.

Lemma loader_returns_trimmed_witness :
  Forall (λ e, strip (word e) = word e ∧ strip (etymology e) = etymology e
               ∧ strip (notes e) = notes e)
    [ {| word := "matcha"; etymology := "green tea"; notes := "grade8" |} ].
Proof.
  apply (loader_returns_trimmed {[ "etymology_db.csv" := good_upload ]}
           "etymology_db.csv").
  vm_compute. reflexivity.
Defined.








Example upload_good_and_broken :
  upload [tea_second] ∅ (Some good_upload) Append
  = (Saved 1 2,
     [tea_second;
      {| word := "matcha"; etymology := "green tea"; notes := "grade8" |}],
     {[ DEFAULT_DB_PATH :=
          "word,etymology,notes" +:+ CRLF +:+ "tea,second,drink" +:+ CRLF
          +:+ "matcha,green tea,grade8" +:+ CRLF ]})
  ∧ upload [tea_second] ∅ (Some broken_upload) Replace
    = (UploadFailed, [tea_second], ∅).
Proof. split; vm_compute; reflexivity. Qed.

(** ** Section extraction: nesting *)

(** X14.  From the same siblings, a heading of higher rank collects what a
    heading of lower rank collects, and possibly more behind it: the body
    for level [lvl'] is a prefix of the body for a level [lvl] that is not
    greater.  So the section of an "Etymology" heading takes in the blocks
    of its sub-headings. *)
Theorem collect_wider_for_higher_rank (lvl lvl' : nat) (sibs : list Node) :
  lvl ≤ lvl' → collect lvl' sibs `prefix_of` collect lvl sibs.
Proof.
  intros Hle. induction sibs as [|sib rest IH]; [done|]. simpl.
  destruct (heading_level (node_name sib)) as [l|].
  - destruct (l <=? lvl') eqn:Hl'; [apply prefix_nil|].
    apply Nat.leb_gt in Hl'.
    assert ((l <=? lvl) = false) as -> by (apply Nat.leb_gt; lia).
    by apply prefix_app.
  - by apply prefix_app.
Qed.

Lemma collect_wider_for_higher_rank_witness :
  collect 3 [Elem "p" [Text "a"]; Elem "h3" [Text "Noun"];
             Elem "p" [Text "b"]; Elem "h2" [Text "French"];
             Elem "p" [Text "c"]]
  `prefix_of`
  collect 2 [Elem "p" [Text "a"]; Elem "h3" [Text "Noun"];
             Elem "p" [Text "b"]; Elem "h2" [Text "French"];
             Elem "p" [Text "c"]].
Proof. apply (collect_wider_for_higher_rank 2 3). lia. Defined.

Example collect_levels :
  collect 3 [Elem "p" [Text "a"]; Elem "h3" [Text "Noun"];
             Elem "p" [Text "b"]; Elem "h2" [Text "French"];
             Elem "p" [Text "c"]] = ["a"]
  ∧ collect 2 [Elem "p" [Text "a"]; Elem "h3" [Text "Noun"];
               Elem "p" [Text "b"]; Elem "h2" [Text "French"];
               Elem "p" [Text "c"]] = ["a"; "b"].
Proof. split; vm_compute; reflexivity. Qed.

(** ** The remote lookup: a page that is there *)

Lemma truthy_not_null (v : Json) : truthy v = true → v ≠ JNull.
Proof. by intros Hv ->. Qed.

Lemma get_json_reply (req : Request) (net : Oracle) (log : list Request) :
  get_json req net log
  = (match net log req with
     | NetFail => Raise RequestException
     | HttpReply false _ => Raise HTTPError
     | HttpReply true None => Raise JSONDecodeError
     | HttpReply true (Some data) => Ok data
     end, log ++ [req]).
Proof.
  unfold get_json, http_get, mbind, Net_bind, mret, Net_ret, raise.
  by destruct (net log req) as [|[] [data|]].
Qed.

Lemma wiktionary_parse_page (title : Json) (net : Oracle)
    (log : list Request) (items items' : list (string * Json)) (html : Json) :
  net log (ParsePage title) = HttpReply true (Some (JDict items)) →
  assoc "parse" items = Some (JDict items') →
  assoc "text" items' = Some html →
  wiktionary_parse title net log = (Ok html, log ++ [ParsePage title]).
Proof.
  intros Hreply Hparse Htext.
  unfold wiktionary_parse, try_except, mbind, Net_bind, lift.
  rewrite get_json_reply, Hreply. simpl. rewrite Hparse. simpl.
  assert (truthy (JDict items') = true) as Ht by (by destruct items').
  unfold py_or. rewrite Ht. simpl. by rewrite Htext.
Qed.

(** X16.  [wiktionary_parse] returns a page, that is a value that counts
    as true, exactly when the reply has status OK and its body is a JSON
    object whose member [parse] is an object whose member [text] is that
    value.  In every other case it returns [None]. *)
Theorem page_found_iff (title : Json) (net : Oracle) (log : list Request)
    (html : Json) :
  truthy html = true →
  wiktionary_parse title net log = (Ok html, log ++ [ParsePage title])
  ↔ ∃ items items',
      net log (ParsePage title) = HttpReply true (Some (JDict items))
      ∧ assoc "parse" items = Some (JDict items')
      ∧ assoc "text" items' = Some html.
Proof.
  intros Hhtml. apply truthy_not_null in Hhtml. split.
  - unfold wiktionary_parse, try_except, mbind, Net_bind, lift.
    rewrite get_json_reply.
    destruct (net log (ParsePage title)) as [|[] [data|]];
      try (by intros [= <-]).
    destruct data as [| | | | |items]; simpl; try (by intros [= <-]).
    destruct (assoc "parse" items) as [parse|] eqn:Hparse; simpl;
      [|by intros [= <-]].
    unfold py_or. destruct (truthy parse) eqn:Hp; simpl;
      [|by intros [= <-]].
    destruct parse as [| | | | |items']; simpl; try (by intros [= <-]).
    destruct (assoc "text" items') as [text|] eqn:Htext; simpl;
      [|by intros [= <-]].
    intros [= <-]. by exists items, items'.
  - intros (items & items' & Hreply & Hparse & Htext).
    by eapply wiktionary_parse_page.
Qed.

Lemma page_found_iff_witness :
  wiktionary_parse (JStr "tea") serving []
  = (Ok (JStr "<h2>Etymology</h2><p>x</p>"), [] ++ [ParsePage (JStr "tea")]).
Proof.
  apply (page_found_iff (JStr "tea") serving []
           (JStr "<h2>Etymology</h2><p>x</p>")); [reflexivity|].
  exists [("parse", JDict [("text", JStr "<h2>Etymology</h2><p>x</p>")])],
    [("text", JStr "<h2>Etymology</h2><p>x</p>")].
  repeat split; reflexivity.
Defined.

Lemma lower_idemp (s : string) : lower (lower s) = lower s.
Proof.
  unfold lower. induction s as [|c s IH]; [done|]. simpl. rewrite IH.
  f_equal. destruct c as [[] [] [] [] [] [] [] []]; by vm_compute.
Qed.

Section Online.

Variable parse_html : string → list Node.

(** X17.  When the online lookup is on, the word has no etymology in the
    dataset and the service has a page of text under the normalised word
    in lower case, the handler sends that one request and shows the root
    hints and the etymology sections of that page, under that title. *)
Theorem first_page_is_shown (rows : list Entry) (net : Oracle) (raw : string)
    (items items' : list (string * Json)) (h : string) :
  clean_word raw ≠ EmptyString →
  (∀ r, r ∈ rows → lower (word r) = lower (clean_word raw) →
        etymology r = EmptyString) →
  net [] (ParsePage (JStr (lower (clean_word raw))))
  = HttpReply true (Some (JDict items)) →
  assoc "parse" items = Some (JDict items') →
  assoc "text" items' = Some (JStr h) →
  h ≠ EmptyString →
  resolve parse_html rows net raw true
  = (RemoteFound (matches (clean_word raw))
       (JStr (lower (clean_word raw)))
       (extract_etymology_sections parse_html h),
     [ParsePage (JStr (lower (clean_word raw)))]).
Proof.
  intros Hw Hrows Hreply Hparse Htext Hh.
  rewrite resolve_not_found by done. unfold not_local.
  assert (fetch_etymology_html (clean_word raw) net []
          = (Ok (JStr h, JStr (lower (clean_word raw))),
             [ParsePage (JStr (lower (clean_word raw)))])) as ->.
  { unfold fetch_etymology_html. cbn [try_candidates].
    unfold mbind, Net_bind.
    rewrite (wiktionary_parse_page _ _ _ _ _ _ Hreply Hparse Htext).
    simpl. apply nonempty_true in Hh. by rewrite Hh. }
  apply nonempty_true in Hh. simpl. rewrite Hh. simpl.
  unfold title_differs. simpl.
  destruct (nonempty (lower (clean_word raw))); by rewrite ?lower_idemp.
Qed.

End Online.

Lemma first_page_is_shown_witness :
  resolve no_parser [tea_first] serving "Biology!" true
  = (RemoteFound (matches (clean_word "Biology!"))
       (JStr (lower (clean_word "Biology!")))
       (extract_etymology_sections no_parser "<h2>Etymology</h2><p>x</p>"),
     [ParsePage (JStr (lower (clean_word "Biology!")))]).
Proof.
  apply (first_page_is_shown no_parser [tea_first] serving "Biology!"
           [("parse", JDict [("text", JStr "<h2>Etymology</h2><p>x</p>")])]
           [("text", JStr "<h2>Etymology</h2><p>x</p>")]
           "<h2>Etymology</h2><p>x</p>").
  - discriminate.
  - intros r ->%list_elem_of_singleton. discriminate.
  - reflexivity.
  - reflexivity.
  - reflexivity.
  - discriminate.
Defined.
